(** * Quaestor: template engine and smart updater

    A shallow embedding of [src/quaestor/core/template_engine.py] and
    [src/quaestor/updater.py], and the properties of the two that the
    specification states.

    Text is a [string] whose characters are read as the code points
    U+0000 to U+00FF.  A Python [dict] is an association list in insertion
    order (the order [items()] iterates in).  An exception is a value of
    [exn], the text [str(e)] of the Python exception. *)

From Stdlib Require Import String Ascii ZArith List Bool Lia DecimalString.
From stdpp Require Import gmap strings list.

Import ListNotations.
Open Scope Z_scope.
Open Scope nat_scope.

(** ** Python text primitives *)

Module Py.

Definition exn := string.

(** The double quote, written by its code: a literal cannot hold it. *)
Definition dq : ascii := "034"%char.
Definition bslash : ascii := "092"%char.

(** [q s] is [s] between double quotes. *)
Definition q (s : string) : string := String dq (s +:+ String dq "").

Definition code (c : ascii) : nat := nat_of_ascii c.

Definition between (lo hi c : nat) : bool := (lo <=? c) && (c <=? hi).

Definition is_digit (c : ascii) : bool := between 48 57 (code c).
Definition is_octdigit (c : ascii) : bool := between 48 55 (code c).
Definition is_ascii_letter (c : ascii) : bool :=
  between 65 90 (code c) || between 97 122 (code c).

(** [\s] of [re] on [str]: the white space of Unicode below U+0100. *)
Definition is_space (c : ascii) : bool :=
  let n := code c in
  between 9 13 n || between 28 32 n || (n =? 133) || (n =? 160).

(** [\w] of [re] on [str]: alphanumeric or underscore, below U+0100. *)
Definition is_word (c : ascii) : bool :=
  let n := code c in
  between 48 57 n || between 65 90 n || (n =? 95) || between 97 122 n
  || (n =? 170) || (n =? 178) || (n =? 179) || (n =? 181) || (n =? 185)
  || (n =? 186) || between 188 190 n || between 192 214 n
  || between 216 246 n || between 248 255 n.

(** [str.lower] on one character. *)
Definition lower_char (c : ascii) : ascii :=
  let n := code c in
  if between 65 90 n || between 192 214 n || between 216 222 n
  then ascii_of_nat (n + 32) else c.

Fixpoint lower (s : string) : string :=
  match s with
  | EmptyString => EmptyString
  | String c s' => String (lower_char c) (lower s')
  end.

Fixpoint drop (n : nat) (s : string) : string :=
  match n, s with
  | S n', String _ s' => drop n' s'
  | _, _ => s
  end.

Fixpoint take (n : nat) (s : string) : string :=
  match n, s with
  | S n', String c s' => String c (take n' s')
  | _, _ => EmptyString
  end.

Fixpoint startswith (p s : string) : bool :=
  match p, s with
  | EmptyString, _ => true
  | String a p', String b s' => if Ascii.eqb a b then startswith p' s' else false
  | String _ _, EmptyString => false
  end.

(** [sub in s]. *)
Fixpoint contains (sub s : string) : bool :=
  startswith sub s ||
  match s with
  | EmptyString => false
  | String _ s' => contains sub s'
  end.

(** [s.find(sub)]: the lowest index, or -1. *)
Fixpoint find_from (sub s : string) (i : nat) : Z :=
  if startswith sub s then Z.of_nat i
  else match s with
       | EmptyString => (-1)%Z
       | String _ s' => find_from sub s' (S i)
       end.

Definition find (s sub : string) : Z := find_from sub s 0.

(** [s.count(sub)]: the occurrences that do not overlap, left to right. *)
Fixpoint count_go (sub s : string) (skip : nat) : nat :=
  match s with
  | EmptyString => 0
  | String _ s' =>
      match skip with
      | S n => count_go sub s' n
      | O => if startswith sub s
             then S (count_go sub s' (String.length sub - 1))
             else count_go sub s' 0
      end
  end.

Definition count (s sub : string) : nat :=
  match sub with
  | EmptyString => S (String.length s)
  | _ => count_go sub s 0
  end.

(** A slice bound, as Python clamps it: a negative index counts from the
    end, and what falls outside is cut to the text. *)
Definition clamp (len : nat) (i : Z) : nat :=
  let j := if (i <? 0)%Z then (i + Z.of_nat len)%Z else i in
  Z.to_nat (Z.min (Z.max j 0) (Z.of_nat len)).

(** [s[a:b]], [s[:b]] and [s[a:]]. *)
Definition slice (s : string) (a b : Z) : string :=
  let len := String.length s in
  take (clamp len b - clamp len a) (drop (clamp len a) s).

Definition slice_to (s : string) (b : Z) : string :=
  take (clamp (String.length s) b) s.

Definition slice_from (s : string) (a : Z) : string :=
  drop (clamp (String.length s) a) s.

(** [str(n)] for an [int]. *)
Definition str_int (z : Z) : string := NilZero.string_of_int (Z.to_int z).
Definition str_nat (n : nat) : string := str_int (Z.of_nat n).

(** Every character of [s] satisfies [p]. *)
Fixpoint all (p : ascii -> bool) (s : string) : bool :=
  match s with
  | EmptyString => true
  | String c s' => p c && all p s'
  end.

(** A character other than the backslash. *)
Definition not_bslash (c : ascii) : bool := negb (Ascii.eqb c bslash).

(** [s.replace(old, new)]. *)
Fixpoint replace_go (old new s : string) (skip : nat) : string :=
  match s with
  | EmptyString => EmptyString
  | String a s' =>
      match skip with
      | S n => replace_go old new s' n
      | O => if startswith old s
             then new +:+ replace_go old new s' (String.length old - 1)
             else String a (replace_go old new s' 0)
      end
  end.

Fixpoint intersperse (new s : string) : string :=
  match s with
  | EmptyString => new
  | String a s' => new +:+ String a (intersperse new s')
  end.

Definition replace (s old new : string) : string :=
  match old with
  | EmptyString => intersperse new s
  | _ => replace_go old new s 0
  end.

(** [a / b] of [pathlib], and [p.parent] of a path with a directory. *)
Definition path_join (a b : string) : string := a +:+ "/" +:+ b.

Fixpoint parent (p : string) : string :=
  match p with
  | EmptyString => EmptyString
  | String c p' => if contains "/" p' then String c (parent p') else EmptyString
  end.

End Py.

(** ** The regular expressions of [re] that the source uses

    Every pattern of the source is a sequence of literal characters,
    character classes under [*], [+] or [*?], and capture groups; there is
    no alternation and no quantifier over more than one character.  The
    matcher backtracks as [re] does: a greedy repetition tries the longest
    run first, a lazy one the shortest. *)

Module Re.
Import Py.

Inductive cset : Type :=
| Ch (c : ascii)          (* one character *)
| Range (lo hi : ascii)   (* lo-hi *)
| SpaceC                  (* \s *)
| WordC.                  (* \w *)

(** A class [[...]] or, with [neg], [[^...]]. *)
Record cls : Type := Cls { neg : bool; members : list cset }.

Inductive item : Type :=
| Lit (c : ascii)
| Rep (c : cls) (least : nat) (greedy : bool)
| Open (g : nat)
| Close (g : nat).

Definition regex := list item.

Definition in_cset (a : ascii) (m : cset) : bool :=
  match m with
  | Ch c => Ascii.eqb a c
  | Range lo hi => between (code lo) (code hi) (code a)
  | SpaceC => is_space a
  | WordC => is_word a
  end.

Definition in_cls (c : cls) (a : ascii) : bool :=
  xorb (neg c) (existsb (in_cset a) (members c)).

(** A mark: a group opens ([true]) or closes at an offset of the match. *)
Definition mark := (bool * nat * nat)%type.
Definition mres := (nat * list mark)%type.

Section Repeat.
Variable c : cls.
Variable k : string -> nat -> option mres.

Definition stop (least : nat) (s : string) (i : nat) : option mres :=
  match least with O => k s i | S _ => None end.

Fixpoint rep_greedy (least : nat) (s : string) (i : nat) : option mres :=
  match s with
  | String a s' =>
      if in_cls c a then
        match rep_greedy (pred least) s' (S i) with
        | Some r => Some r
        | None => stop least s i
        end
      else stop least s i
  | EmptyString => stop least s i
  end.

Fixpoint rep_lazy (least : nat) (s : string) (i : nat) : option mres :=
  match stop least s i with
  | Some r => Some r
  | None =>
      match s with
      | String a s' =>
          if in_cls c a then rep_lazy (pred least) s' (S i) else None
      | EmptyString => None
      end
  end.
End Repeat.

(** [matches p s i]: [p] matched at the head of [s], which lies at offset
    [i] of the match; the result is the offset where the match ends, and
    the marks of the groups. *)
Fixpoint matches (p : regex) (s : string) (i : nat) {struct p} : option mres :=
  match p with
  | [] => Some (i, [])
  | Lit c :: p' =>
      match s with
      | String a s' => if Ascii.eqb a c then matches p' s' (S i) else None
      | EmptyString => None
      end
  | Rep c least true :: p' => rep_greedy c (matches p') least s i
  | Rep c least false :: p' => rep_lazy c (matches p') least s i
  | Open g :: p' =>
      match matches p' s i with
      | Some (e, ms) => Some (e, (true, g, i) :: ms)
      | None => None
      end
  | Close g :: p' =>
      match matches p' s i with
      | Some (e, ms) => Some (e, (false, g, i) :: ms)
      | None => None
      end
  end.

(** A match object: the subject from where the match starts, the length
    of the match, and the marks. *)
Record Match : Type := MkMatch { m_text : string; m_len : nat; m_marks : list mark }.

Fixpoint mark_pos (opening : bool) (g : nat) (ms : list mark) : option nat :=
  match ms with
  | [] => None
  | (o, g', i) :: ms' =>
      if Bool.eqb o opening && (g' =? g) then Some i else mark_pos opening g ms'
  end.

(** [match.group(g)]. *)
Definition group (mt : Match) (g : nat) : string :=
  match g with
  | O => take (m_len mt) (m_text mt)
  | S _ =>
      match mark_pos true g (m_marks mt), mark_pos false g (m_marks mt) with
      | Some a, Some b => take (b - a) (drop a (m_text mt))
      | _, _ => EmptyString
      end
  end.

(** [re.sub(p, f, s)] for a function [f].  Every pattern of the source
    begins with two literal braces, so a match is never empty; the special
    treatment [re] gives to empty matches is left out, and an empty match
    counts as none. *)
Fixpoint sub_go (p : regex) (f : Match -> string) (s : string) (skip : nat) : string :=
  match s with
  | EmptyString => EmptyString
  | String a s' =>
      match skip with
      | S n => sub_go p f s' n
      | O =>
          match matches p s 0 with
          | Some (S e, ms) => f (MkMatch s (S e) ms) +:+ sub_go p f s' e
          | _ => String a (sub_go p f s' 0)
          end
      end
  end.

Definition sub_fn (p : regex) (f : Match -> string) (s : string) : string :=
  sub_go p f s 0.

(** [re.findall(p, s)] for a pattern with one group: the text of group 1
    of every match. *)
Fixpoint findall_go (p : regex) (s : string) (skip : nat) : list string :=
  match s with
  | EmptyString => []
  | String a s' =>
      match skip with
      | S n => findall_go p s' n
      | O =>
          match matches p s 0 with
          | Some (S e, ms) => group (MkMatch s (S e) ms) 1 :: findall_go p s' e
          | _ => findall_go p s' 0
          end
      end
  end.

Definition findall (p : regex) (s : string) : list string := findall_go p s 0.

(** Number of groups of a pattern. *)
Definition groups (p : regex) : nat :=
  List.length (List.filter (fun it => match it with Open _ => true | _ => false end) p).

(** *** Replacement templates

    A replacement given as a string is parsed before the search starts
    ([parse_template] of [re], as Python 3.7 and later have it): a
    backslash introduces a group reference or an escape, and an unknown
    escape of a letter, a reference to a group the pattern does not
    have, or a backslash at the end is an error, raised whether or not
    the pattern matches anywhere.  No pattern of the source has a named
    group, so that a reference by name is always an error. *)

Inductive tok : Type :=
| TLit (s : string)
| TGroup (g : nat).

Fixpoint until_gt (s : string) : option string :=
  match s with
  | EmptyString => None
  | String c s' =>
      if Ascii.eqb c ">" then Some EmptyString
      else match until_gt s' with
           | Some n => Some (String c n)
           | None => None
           end
  end.

Fixpoint all_digits (s : string) : bool :=
  match s with
  | EmptyString => true
  | String c s' => is_digit c && all_digits s'
  end.

Definition digit_val (c : ascii) : nat := code c - 48.

Fixpoint decimal_go (acc : nat) (s : string) : nat :=
  match s with
  | EmptyString => acc
  | String c s' => decimal_go (10 * acc + digit_val c) s'
  end.

Definition chr (n : nat) : string := String (ascii_of_nat n) "".

Definition escape_char (c : ascii) : option nat :=
  if Ascii.eqb c "a" then Some 7 else
  if Ascii.eqb c "b" then Some 8 else
  if Ascii.eqb c "f" then Some 12 else
  if Ascii.eqb c "n" then Some 10 else
  if Ascii.eqb c "r" then Some 13 else
  if Ascii.eqb c "t" then Some 9 else
  if Ascii.eqb c "v" then Some 11 else
  if Ascii.eqb c bslash then Some 92 else None.

Definition add_group (ngroups index used : nat) : exn + (tok * nat) :=
  if ngroups <? index then inl "invalid group reference"
  else inr (TGroup index, used).

(** The escape whose text follows a backslash: the token it stands for
    and the number of characters after the backslash that it takes. *)
Definition escape (ngroups : nat) (s : string) : exn + (tok * nat) :=
  match s with
  | EmptyString => inl "bad escape (end of pattern)"
  | String c r =>
      if Ascii.eqb c "g" then
        match r with
        | String "<" r' =>
            match until_gt r' with
            | None => inl "missing >, unterminated name"
            | Some EmptyString => inl "missing group name"
            | Some name =>
                if all_digits name
                then add_group ngroups (decimal_go 0 name) (3 + String.length name)
                else inl "unknown group name"
            end
        | _ => inl "missing <"
        end
      else if Ascii.eqb c "0" then
        match r with
        | String d1 r1 =>
            if is_octdigit d1 then
              match r1 with
              | String d2 _ =>
                  if is_octdigit d2
                  then inr (TLit (chr ((8 * digit_val d1 + digit_val d2) mod 256)), 3)
                  else inr (TLit (chr (digit_val d1)), 2)
              | EmptyString => inr (TLit (chr (digit_val d1)), 2)
              end
            else inr (TLit (chr 0), 1)
        | EmptyString => inr (TLit (chr 0), 1)
        end
      else if is_digit c then
        match r with
        | String d2 r2 =>
            if is_digit d2 then
              match r2 with
              | String d3 _ =>
                  if is_octdigit c && is_octdigit d2 && is_octdigit d3 then
                    let v := 64 * digit_val c + 8 * digit_val d2 + digit_val d3 in
                    if 255 <? v then inl "octal escape value outside of range 0-0o377"
                    else inr (TLit (chr v), 3)
                  else add_group ngroups (10 * digit_val c + digit_val d2) 2
              | EmptyString => add_group ngroups (10 * digit_val c + digit_val d2) 2
              end
            else add_group ngroups (digit_val c) 1
        | EmptyString => add_group ngroups (digit_val c) 1
        end
      else
        match escape_char c with
        | Some n => inr (TLit (chr n), 1)
        | None =>
            if is_ascii_letter c then inl "bad escape"
            else inr (TLit (String bslash (String c "")), 1)
        end
  end.

Fixpoint parse_go (ngroups : nat) (s : string) (skip : nat) : exn + list tok :=
  match s with
  | EmptyString => inr []
  | String a s' =>
      match skip with
      | S n => parse_go ngroups s' n
      | O =>
          if Ascii.eqb a bslash then
            match escape ngroups s' with
            | inl e => inl e
            | inr (t, used) =>
                match parse_go ngroups s' used with
                | inl e => inl e
                | inr ts => inr (t :: ts)
                end
            end
          else
            match parse_go ngroups s' 0 with
            | inl e => inl e
            | inr ts => inr (TLit (String a "") :: ts)
            end
      end
  end.

Definition parse_template (ngroups : nat) (repl : string) : exn + list tok :=
  parse_go ngroups repl 0.

Fixpoint expand (ts : list tok) (mt : Match) : string :=
  match ts with
  | [] => EmptyString
  | TLit s :: ts' => s +:+ expand ts' mt
  | TGroup g :: ts' => group mt g +:+ expand ts' mt
  end.

(** [re.sub(p, repl, s)] for a string [repl]. *)
Definition sub (p : regex) (repl : string) (s : string) : exn + string :=
  match parse_template (groups p) repl with
  | inl e => inl e
  | inr ts => inr (sub_fn p (expand ts) s)
  end.

(** *** Writing patterns *)

Fixpoint lit (s : string) : regex :=
  match s with
  | EmptyString => []
  | String c s' => Lit c :: lit s'
  end.

Definition space : cls := Cls false [SpaceC].
Definition word : cls := Cls false [WordC].
Definition not_chr (c : ascii) : cls := Cls true [Ch c].

Definition star (c : cls) : regex := [Rep c 0 true].
Definition plus (c : cls) : regex := [Rep c 1 true].
Definition star_lazy (c : cls) : regex := [Rep c 0 false].
Definition grp (g : nat) (p : regex) : regex := Open g :: p ++ [Close g].

End Re.

(** ** The template engine ([template_engine.py]) *)

Module Template.
Import Py Re.

(** The scalars a context holds (section 3 of the specification): [None],
    a boolean, an integer or a string.  Floats and containers, which the
    language configuration may also hold, are left out. *)
Inductive value : Type :=
| VNone
| VBool (b : bool)
| VInt (z : Z)
| VStr (s : string).

(** [project_data]: a [dict] in insertion order. *)
Definition context := list (string * value).

(** [data.get(key, default)]. *)
Fixpoint get (data : context) (key : string) (default : value) : value :=
  match data with
  | [] => default
  | (k, v) :: data' => if String.eqb k key then v else get data' key default
  end.

(** [str(v)]. *)
Definition str (v : value) : string :=
  match v with
  | VNone => "None"
  | VBool true => "True"
  | VBool false => "False"
  | VInt z => str_int z
  | VStr s => s
  end.

(** [bool(v)]. *)
Definition truthy (v : value) : bool :=
  match v with
  | VNone => false
  | VBool b => b
  | VInt z => negb (z =? 0)%Z
  | VStr s => negb (String.eqb s EmptyString)
  end.

(** The text a simple placeholder takes (lines 58-64). *)
Definition subst_text (v : value) : string :=
  match v with
  | VNone => EmptyString
  | VBool b => if b then "true" else "false"
  | _ => str v
  end.

(** Pattern: [\{\{\s*KEY\s*\}\}], KEY being [re.escape(key)]. *)
Definition simple_pattern (key : string) : regex :=
  lit "{{" ++ star space ++ lit key ++ star space ++ lit "}}".

(** Pattern (Q is the double quote): [\{\{\s*Q([^Q]*?)Q\s+if\s+(\w+)\s+else\s+Q([^Q]*?)Q\s*\}\}] *)
Definition conditional_pattern : regex :=
  lit "{{" ++ star space
  ++ [Lit dq] ++ grp 1 (star_lazy (not_chr dq)) ++ [Lit dq]
  ++ plus space ++ lit "if" ++ plus space ++ grp 2 (plus word)
  ++ plus space ++ lit "else" ++ plus space
  ++ [Lit dq] ++ grp 3 (star_lazy (not_chr dq)) ++ [Lit dq]
  ++ star space ++ lit "}}".

(** Pattern (Q is the double quote): [\{\{\s*(\w+)\s+if\s+(\w+)\s+else\s+Q([^Q]*?)Q\s*\}\}] *)
Definition value_conditional_pattern : regex :=
  lit "{{" ++ star space ++ grp 1 (plus word)
  ++ plus space ++ lit "if" ++ plus space ++ grp 2 (plus word)
  ++ plus space ++ lit "else" ++ plus space
  ++ [Lit dq] ++ grp 3 (star_lazy (not_chr dq)) ++ [Lit dq]
  ++ star space ++ lit "}}".

(** The truth of a condition value (lines 94-97 and 110-113): a string
    by its lowercase text, anything else as [bool] takes it. *)
Definition holds (condition_value : value) : bool :=
  match condition_value with
  | VStr s =>
      let l := lower s in
      String.eqb l "true" || String.eqb l "1" || String.eqb l "yes" || String.eqb l "on"
  | v => truthy v
  end.

Definition condition (data : context) (condition_var : string) : bool :=
  holds (get data condition_var (VBool false)).

Definition replace_conditional (data : context) (mt : Match) : string :=
  let true_text := group mt 1 in
  let condition_var := group mt 2 in
  let false_text := group mt 3 in
  if condition data condition_var then true_text else false_text.

Definition replace_value_conditional (data : context) (mt : Match) : string :=
  let value_var := group mt 1 in
  let condition_var := group mt 2 in
  let default_text := group mt 3 in
  if condition data condition_var
  then str (get data value_var (VStr EmptyString))
  else default_text.

(** Pattern (Q is the double quote): [\{\{\s*Q>=Q \+ coverage_threshold\|string \+ Q%Q\s+if\s+coverage_threshold\s+else\s+QoptionalQ\s*\}\}] *)
Definition threshold_or_optional_pattern : regex :=
  lit "{{" ++ star space
  ++ lit (q ">=" +:+ " + coverage_threshold|string + " +:+ q "%")
  ++ plus space ++ lit "if" ++ plus space ++ lit "coverage_threshold"
  ++ plus space ++ lit "else" ++ plus space ++ lit (q "optional")
  ++ star space ++ lit "}}".

(** Pattern (Q is the double quote): [\{\{\s*coverage_threshold\|string \+ Q%Q\s+if\s+coverage_threshold\s+else\s+Q80%Q\s*\}\}] *)
Definition threshold_or_default_pattern : regex :=
  lit "{{" ++ star space
  ++ lit ("coverage_threshold|string + " +:+ q "%")
  ++ plus space ++ lit "if" ++ plus space ++ lit "coverage_threshold"
  ++ plus space ++ lit "else" ++ plus space ++ lit (q "80%")
  ++ star space ++ lit "}}".

(** Pattern (Q is the double quote): [\{\{\s*QtrueQ\s+if\s+project_type\s*==\s*QwebQ\s+else\s+QfalseQ\s*\}\}] *)
Definition web_flag_pattern : regex :=
  lit "{{" ++ star space ++ lit (q "true")
  ++ plus space ++ lit "if" ++ plus space ++ lit "project_type"
  ++ star space ++ lit "==" ++ star space ++ lit (q "web")
  ++ plus space ++ lit "else" ++ plus space ++ lit (q "false")
  ++ star space ++ lit "}}".

(** Pattern (Q is the double quote): [\{\{\s*performance_target_ms\s+if\s+performance_target_ms\s+else\s+Q200Q\s*\}\}] *)
Definition performance_target_pattern : regex :=
  lit "{{" ++ star space ++ lit "performance_target_ms"
  ++ plus space ++ lit "if" ++ plus space ++ lit "performance_target_ms"
  ++ plus space ++ lit "else" ++ plus space ++ lit (q "200")
  ++ star space ++ lit "}}".

(** Pattern (Q is the double quote): [\{\{\s*[^}]+\s*\}\}] *)
Definition cleanup_pattern : regex :=
  lit "{{" ++ star space ++ plus (not_chr "}") ++ star space ++ lit "}}".

(** Sequencing of steps that may raise. *)
Definition bind {A B : Type} (x : exn + A) (f : A -> exn + B) : exn + B :=
  match x with
  | inl e => inl e
  | inr a => f a
  end.

Notation "'let*' x ':=' c1 'in' c2" := (bind c1 (fun x => c2))
  (at level 10, x name, c1 at level 100, c2 at level 200).

Definition _process_specific_patterns (content : string) (data : context) : exn + string :=
  let coverage_threshold := get data "coverage_threshold" VNone in
  let* content := (if truthy coverage_threshold then
       let* content := sub threshold_or_optional_pattern
                    (">=" +:+ str coverage_threshold +:+ "%") content in
       sub threshold_or_default_pattern (str coverage_threshold +:+ "%") content
     else
       let* content := sub threshold_or_optional_pattern "optional" content in
       sub threshold_or_default_pattern "80%" content) in
  let project_type := get data "project_type" (VStr "unknown") in
  let is_web :=
    match project_type with
    | VStr s => if String.eqb s "web" then "true" else "false"
    | _ => "false"
    end in
  let* content := sub web_flag_pattern is_web content in
  let performance_target := get data "performance_target_ms" (VInt 200) in
  sub performance_target_pattern (str performance_target) content.

Definition _process_conditionals (content : string) (data : context) : exn + string :=
  let content := sub_fn conditional_pattern (replace_conditional data) content in
  let content := sub_fn value_conditional_pattern (replace_value_conditional data) content in
  _process_specific_patterns content data.

(** The loop of lines 57-64 over [project_data.items()]. *)
Fixpoint substitute (items : context) (content : string) : exn + string :=
  match items with
  | [] => inr content
  | (key, value) :: items' =>
      let* content := sub (simple_pattern key) (subst_text value) content in
      substitute items' content
  end.

(** [process_template], from the text [read_text] returned. *)
Definition process_template (content : string) (project_data : context) : exn + string :=
  let* content := substitute project_data content in
  let* content := _process_conditionals content project_data in
  sub cleanup_pattern EmptyString content.

(** [render_template_string]: the text goes through a temporary file,
    which is read back and removed. *)
Definition render_template_string (template_str : string) (project_data : context) : exn + string :=
  process_template template_str project_data.

(** Pattern of line 231: [\{\{\s*(BODY)\s*\}\}], where BODY is
    [[^}]*[^a-zA-Z0-9_\s|QA+-]+[^}]*], Q the double quote and A the
    apostrophe. *)
Definition name_class : cls :=
  Cls true [Range "a" "z"; Range "A" "Z"; Range "0" "9"; Ch "_"; SpaceC;
            Ch "|"; Ch dq; Ch "'"; Ch "+"; Ch "-"].

Definition invalid_pattern : regex :=
  lit "{{" ++ star space
  ++ grp 1 (star (not_chr "}") ++ plus name_class ++ star (not_chr "}"))
  ++ star space ++ lit "}}".

Definition keywords : list string :=
  ["if"; "else"; "string"; "+"; String dq EmptyString].

(** The checks of [validate_template] on the text of the file (lines
    224-236). *)
Definition validate_content (content : string) : bool * list string :=
  let open_braces := count content "{{" in
  let close_braces := count content "}}" in
  let errors :=
    if open_braces =? close_braces then []
    else ["Unmatched template braces: " +:+ str_nat open_braces +:+ " opening, "
          +:+ str_nat close_braces +:+ " closing"] in
  let invalid_vars := findall invalid_pattern content in
  let errors :=
    errors ++
    List.map (fun var => "Invalid variable name: " +:+ var)
      (List.filter (fun var => negb (existsb (fun keyword => contains keyword var) keywords))
         invalid_vars) in
  (Nat.eqb (List.length errors) 0, errors).

(** [validate_template]: [file] is [None] when the path does not exist,
    and otherwise what [read_text] gives, the text or an exception. *)
Definition validate_template (path : string) (file : option (exn + string)) : bool * list string :=
  match file with
  | None => (false, ["Template file does not exist: " +:+ path])
  | Some (inl e) => (false, ["Cannot read template file: " +:+ e])
  | Some (inr content) => validate_content content
  end.

Definition coverage_template : string :=
  "Coverage: {{ " +:+ q ">=" +:+ " + coverage_threshold|string + " +:+ q "%"
  +:+ " if coverage_threshold else " +:+ q "optional" +:+ " }}".

Definition performance_expr : string :=
  "{{ performance_target_ms if performance_target_ms else " +:+ q "200" +:+ " }}".

(** The key of the performance target. *)
Definition target_key : string := "performance_target_ms".

(** A value whose text holds no backslash. *)
Definition no_backslash (v : value) : bool :=
  match v with
  | VStr s => all not_bslash s
  | _ => true
  end.

End Template.

(** ** The updater ([updater.py])

    The project tree is a finite map from the path of a file, relative to
    [target_dir], to its text; [~/.claude/commands] is a second map, from
    file names.  Every operation on the outside world is an [op]: the run
    records the ones it attempts, in order, and the environment tells
    which of them fail. *)

Module Updater.
Import Py.

(** Modelled from the spec: the variants of [FileType] (section 3); the
    enumeration is declared in [quaestor.core.project_metadata], which is
    not among the sources. *)
Inductive FileType : Type := SYSTEM | USER_EDITABLE | COMMAND | OTHER.

Inductive op : Type :=
| Mkdir (dir : string)
| WriteText (path : string)
| ReadText (path : string)
| Stat (path : string)
| Copy (src dst : string)
| ReadResource (package name : string)
| MkdirCommands
| WriteCommand (name : string)
| SetVersion (version : string)
| TrackFile (path : string)
| Save.

(** Modelled from the spec: a [ManifestEntry] of section 3, the record
    [FileManifest] keeps of a tracked file; the class is declared in
    [quaestor.core.project_metadata], which is not among the sources. *)
Record ManifestEntry : Type := MkEntry {
  entry_type : FileType;
  entry_version : string;
  entry_baseline : string;
  entry_time : string
}.

(** Modelled from the spec: the [Manifest] of section 3, the version of
    the tool and the entries by relative path, in place of the missing
    class [FileManifest]. *)
Record Manifest : Type := MkManifest {
  quaestor_version : option string;
  entries : gmap string ManifestEntry
}.

Record UpdateResult : Type := MkResult {
  updated : list string;
  skipped : list string;
  added : list string;
  failed : list (string * string);
  backed_up : list string
}.

(** [UpdateResult()]. *)
Definition new_result : UpdateResult := MkResult [] [] [] [] [].

(** What the code takes from the modules [quaestor], [quaestor.constants]
    and [quaestor.core.project_metadata], which are not among the
    sources, and what the outside world answers: the shipped resources,
    the clock, and the operations that fail. *)
Record Env : Type := MkEnv {
  version : string;                        (* quaestor.__version__ *)
  COMMAND_FILES : list string;
  QUAESTOR_CONFIG_START : string;
  QUAESTOR_CONFIG_END : string;
  categorize_file : string -> FileType;    (* by the relative path *)
  extract_version_from_content : string -> option string;
  fingerprint : string -> string;          (* the modification baseline of a text *)
  resources : string -> string -> exn + string;   (* pkg_resources.read_text *)
  fault : op -> option exn;                (* the operations that fail *)
  now : string                             (* datetime.now(), formatted *)
}.

(** The world of a run: [files] is the tree of the project, by paths
    relative to its root, without the file of the manifest, whose
    content is [saved]; [commands] is the directory of the commands,
    taken to lie outside the tree. *)
Record State : Type := MkState {
  files : gmap string string;
  commands : gmap string string;
  manifest : Manifest;     (* the FileManifest object *)
  saved : Manifest;        (* the manifest on disk *)
  result : UpdateResult;
  trace : list op
}.

Definition set_files (f : gmap string string -> gmap string string) (s : State) : State :=
  MkState (f (files s)) (commands s) (manifest s) (saved s) (result s) (trace s).
Definition set_commands (f : gmap string string -> gmap string string) (s : State) : State :=
  MkState (files s) (f (commands s)) (manifest s) (saved s) (result s) (trace s).
Definition set_manifest (f : Manifest -> Manifest) (s : State) : State :=
  MkState (files s) (commands s) (f (manifest s)) (saved s) (result s) (trace s).
Definition set_saved (m : Manifest) (s : State) : State :=
  MkState (files s) (commands s) (manifest s) m (result s) (trace s).
Definition set_result (f : UpdateResult -> UpdateResult) (s : State) : State :=
  MkState (files s) (commands s) (manifest s) (saved s) (f (result s)) (trace s).
Definition log (o : op) (s : State) : State :=
  MkState (files s) (commands s) (manifest s) (saved s) (result s) (trace s ++ [o]).

(** *** Statements that change the state and may raise *)

Definition M (A : Type) : Type := State -> State * (exn + A).

Definition ret {A : Type} (a : A) : M A := fun s => (s, inr a).

Definition raise {A : Type} (e : exn) : M A := fun s => (s, inl e).

Definition bind {A B : Type} (m : M A) (f : A -> M B) : M B :=
  fun s =>
    match m s with
    | (s', inr a) => f a s'
    | (s', inl e) => (s', inl e)
    end.

Notation "'let*' x ':=' c1 'in' c2" := (bind c1 (fun x => c2))
  (at level 10, x name, c1 at level 100, c2 at level 200).
Notation "c1 ;; c2" := (bind c1 (fun _ => c2))
  (at level 100, c2 at level 200, right associativity).

(** [try: body except Exception as e: handler(e)]. *)
Definition try_except {A : Type} (body : M A) (handler : exn -> M A) : M A :=
  fun s =>
    match body s with
    | (s', inl e) => handler e s'
    | r => r
    end.

(** [for x in l: body(x)]. *)
Fixpoint for_each {A : Type} (l : list A) (body : A -> M unit) : M unit :=
  match l with
  | [] => ret tt
  | x :: l' => body x ;; for_each l' body
  end.

Definition gets {A : Type} (f : State -> A) : M A := fun s => (s, inr (f s)).
Definition modify (f : State -> State) : M unit := fun s => (f s, inr tt).
Definition when (b : bool) (m : M unit) : M unit := if b then m else ret tt.

Section Run.
Variable env : Env.

(** An operation is attempted, and fails if the environment says so. *)
Definition attempt (o : op) : M unit :=
  fun s =>
    match fault env o with
    | Some e => (log o s, inl e)
    | None => (log o s, inr tt)
    end.

(** [path.exists()], when the test answers: whether the tree has the
    file. *)
Definition exists_ (path : string) : M bool :=
  gets (fun s => bool_decide (is_Some (files s !! path))).

(** [path.exists()] with its failure: [os.stat] may raise (a directory
    on the way that may not be searched), and [Path.exists] lets such an
    error through.  This is the test where no [try] encloses the call,
    so that the error leaves the method. *)
Definition stat (path : string) : M bool :=
  attempt (Stat path) ;;
  exists_ path.

(** [path.read_text()]. *)
Definition read_text (path : string) : M string :=
  attempt (ReadText path) ;;
  let* content := gets (fun s => files s !! path) in
  match content with
  | Some text => ret text
  | None => raise "No such file or directory"
  end.

(** [path.write_text(content)]. *)
Definition write_text (path content : string) : M unit :=
  attempt (WriteText path) ;;
  modify (set_files (fun fs => <[path := content]> fs)).

(** [path.mkdir(parents=True, exist_ok=True)]. *)
Definition mkdir (dir : string) : M unit := attempt (Mkdir dir).

(** The same two on [~/.claude/commands] and a file of it. *)
Definition mkdir_commands : M unit := attempt MkdirCommands.

Definition write_command (name content : string) : M unit :=
  attempt (WriteCommand name) ;;
  modify (set_commands (fun cs => <[name := content]> cs)).

Definition command_exists (name : string) : M bool :=
  gets (fun s => bool_decide (is_Some (commands s !! name))).

(** [pkg_resources.read_text(package, name)]. *)
Definition read_resource (package name : string) : M string :=
  modify (log (ReadResource package name)) ;;
  match resources env package name with
  | inl e => raise e
  | inr text => ret text
  end.

(** Modelled from the spec: [FileManifest.set_quaestor_version], which
    records the version of the tool in the manifest (section 3). *)
Definition set_quaestor_version (v : string) : M unit :=
  modify (log (SetVersion v)) ;;
  modify (set_manifest (fun m => MkManifest (Some v) (entries m))).

(** Modelled from the spec: [FileManifest.track_file], which records the
    entry of a file that was just written, with its type, its version,
    the baseline of its text and the time (sections 3 and 4.5). *)
Definition track_file (path : string) (file_type : FileType) (v : string) : M unit :=
  modify (log (TrackFile path)) ;;
  modify (fun s =>
    let text := default EmptyString (files s !! path) in
    set_manifest (fun m =>
      MkManifest (quaestor_version m)
        (<[path := MkEntry file_type v (fingerprint env text) (now env)]> (entries m))) s).

(** Modelled from the spec: [FileManifest.is_file_modified], which tells
    whether the text on disk differs from the baseline of the entry
    (glossary, modification baseline). *)
Definition is_file_modified (path : string) : M bool :=
  gets (fun s =>
    match entries (manifest s) !! path, files s !! path with
    | Some e, Some text => negb (String.eqb (fingerprint env text) (entry_baseline e))
    | _, _ => false
    end).

(** Modelled from the spec: [FileManifest.save], which writes the
    manifest out and may fail (sections 3 and 7). *)
Definition save : M unit :=
  attempt Save ;;
  modify (fun s => set_saved (manifest s) s).

Definition quaestor_dir : string := ".quaestor".

(** *** [_create_backup] (lines 226-256)

    The project tree is flat here, so that copying the entries of
    [.quaestor] other than [.backup] is copying every file below them,
    one [Copy] for each; [CLAUDE.md] follows.  Once the backup directory
    is made [.quaestor] exists, and the test of line 239 is left out.
    The result is the backup directory, or [None] after a failure. *)
Definition backup_items (fs : gmap string string) : list (string * string) :=
  List.filter
    (fun kv =>
       let rest := drop (String.length quaestor_dir + 1) (fst kv) in
       startswith (quaestor_dir +:+ "/") (fst kv)
       && negb (String.eqb rest ".backup")
       && negb (startswith ".backup/" rest))
    (map_to_list fs).

Definition copy (src dst : string) : M unit :=
  attempt (Copy src dst) ;;
  let* content := gets (fun s => files s !! src) in
  match content with
  | Some text => modify (set_files (fun fs => <[dst := text]> fs))
  | None => raise "No such file or directory"
  end.

Definition _create_backup : M (option string) :=
  let timestamp := now env in
  let backup_dir := path_join (path_join quaestor_dir ".backup") timestamp in
  try_except
    (mkdir backup_dir ;;
     let* items := gets (fun s => backup_items (files s)) in
     for_each items (fun kv =>
       copy (fst kv)
         (path_join backup_dir (drop (String.length quaestor_dir + 1) (fst kv)))) ;;
     let claude_md := "CLAUDE.md" in
     let* present := exists_ claude_md in
     when present (copy claude_md (path_join backup_dir "CLAUDE.md")) ;;
     ret (Some backup_dir))
    (fun e => ret None).

(** *** [_should_update_file] (lines 362-389) *)
Definition _should_update_file (target_path : string) (file_type : FileType) (force : bool) : M bool :=
  if force then ret true
  else
    let* present := exists_ target_path in
    if negb present then ret true
    else
      match file_type with
      | SYSTEM => ret true
      | USER_EDITABLE => ret false
      | _ =>
          let relative_path := target_path in
          let* modified := is_file_modified relative_path in
          ret (negb modified)
      end.

Definition files_to_process : list (string * string) :=
  [ ("QUAESTOR_CLAUDE.md", path_join quaestor_dir "QUAESTOR_CLAUDE.md");
    ("CRITICAL_RULES.md", path_join quaestor_dir "CRITICAL_RULES.md");
    ("templates/ARCHITECTURE.template.md", path_join quaestor_dir "ARCHITECTURE.md");
    ("templates/MEMORY.template.md", path_join quaestor_dir "MEMORY.md") ].

Definition add_updated (p : string) (r : UpdateResult) : UpdateResult :=
  MkResult (updated r ++ [p]) (skipped r) (added r) (failed r) (backed_up r).
Definition add_skipped (p : string) (r : UpdateResult) : UpdateResult :=
  MkResult (updated r) (skipped r ++ [p]) (added r) (failed r) (backed_up r).
Definition add_added (p : string) (r : UpdateResult) : UpdateResult :=
  MkResult (updated r) (skipped r) (added r ++ [p]) (failed r) (backed_up r).
Definition add_failed (p : string) (e : exn) (r : UpdateResult) : UpdateResult :=
  MkResult (updated r) (skipped r) (added r) (failed r ++ [(p, e)]) (backed_up r).

(** [result.updated.append(p)] and the like. *)
Definition append_updated (p : string) : M unit := modify (set_result (add_updated p)).
Definition append_skipped (p : string) : M unit := modify (set_result (add_skipped p)).
Definition append_added (p : string) : M unit := modify (set_result (add_added p)).
Definition append_failed (p : string) (e : exn) : M unit :=
  modify (set_result (add_failed p e)).

(** *** [_update_quaestor_files] (lines 258-298)

    [quaestor_file_body] is the body of the [try] for one candidate and
    [update_quaestor_file] one turn of the loop. *)
Definition read_new_content (resource_name : string) : M string :=
  if startswith "templates/" resource_name
  then read_resource "quaestor.templates" (replace resource_name "templates/" EmptyString)
  else read_resource "quaestor" resource_name.

(** [v or d] for the version a text may hold: [None] and the empty
    text are false. *)
Definition or_default (v : option string) (d : string) : string :=
  match v with
  | Some x => if String.eqb x EmptyString then d else x
  | None => d
  end.

Definition quaestor_file_body (force dry_run : bool) (resource_name target_path : string)
    (relative_path : string) (file_type : FileType) : M unit :=
  let* new_content := read_new_content resource_name in
  let* should_update := _should_update_file target_path file_type force in
  if should_update then
    when (negb dry_run)
      (mkdir (parent target_path) ;;
       write_text target_path new_content ;;
       let v := or_default (extract_version_from_content env new_content) "1.0" in
       track_file target_path file_type v) ;;
    let* present := exists_ target_path in
    if present then append_updated relative_path
    else append_added relative_path
  else append_skipped relative_path.

Definition update_quaestor_file (force dry_run : bool) (candidate : string * string) : M unit :=
  let resource_name := fst candidate in
  let target_path := snd candidate in
  let relative_path := target_path in
  let file_type := categorize_file env relative_path in
  try_except
    (quaestor_file_body force dry_run resource_name target_path relative_path file_type)
    (fun e => append_failed relative_path e).

Definition _update_quaestor_files (force dry_run : bool) : M unit :=
  for_each files_to_process (update_quaestor_file force dry_run).

(** *** [_update_command_files] (lines 300-317) *)
Definition command_file_body (dry_run : bool) (cmd_file : string) : M unit :=
  let* present := command_exists cmd_file in
  when (negb present)
    (when (negb dry_run)
       (let* content := read_resource "quaestor.commands" cmd_file in
        mkdir_commands ;;
        write_command cmd_file content) ;;
     append_added ("commands/" +:+ cmd_file)).

Definition update_command_file (dry_run : bool) (cmd_file : string) : M unit :=
  try_except (command_file_body dry_run cmd_file)
    (fun e => append_failed ("commands/" +:+ cmd_file) e).

Definition _update_command_files (dry_run : bool) : M unit :=
  for_each (COMMAND_FILES env) (update_command_file dry_run).

(** *** [_update_claude_md_include] (lines 319-360) *)
Definition claude_md_body (dry_run : bool) (claude_path : string) : M unit :=
  let* current_content := read_text claude_path in
  if negb (contains (QUAESTOR_CONFIG_START env) current_content) then ret tt
  else
    let* include_content := read_resource "quaestor.templates" "CLAUDE_INCLUDE.md" in
    let len_end := Z.of_nat (String.length (QUAESTOR_CONFIG_END env)) in
    let config_start_idx := find include_content (QUAESTOR_CONFIG_START env) in
    let config_end_idx := (find include_content (QUAESTOR_CONFIG_END env) + len_end)%Z in
    let new_config := slice include_content config_start_idx config_end_idx in
    let current_start := find current_content (QUAESTOR_CONFIG_START env) in
    let current_end := (find current_content (QUAESTOR_CONFIG_END env) + len_end)%Z in
    let current_config := slice current_content current_start current_end in
    when (negb (String.eqb new_config current_config))
      (when (negb dry_run)
         (let new_content :=
            slice_to current_content current_start +:+ new_config
            +:+ slice_from current_content current_end in
          write_text claude_path new_content) ;;
       append_updated "CLAUDE.md (config section)").

Definition _update_claude_md_include (dry_run : bool) : M unit :=
  let claude_path := "CLAUDE.md" in
  let* present := stat claude_path in
  when present
    (try_except (claude_md_body dry_run claude_path)
       (fun e => append_failed "CLAUDE.md" e)).

(** *** [update] (lines 187-224) *)
Definition update (backup force dry_run : bool) : M UpdateResult :=
  modify (set_result (fun _ => new_result)) ;;
  when (backup && negb dry_run) (_create_backup ;; ret tt) ;;
  when (negb dry_run) (set_quaestor_version (version env)) ;;
  _update_quaestor_files force dry_run ;;
  _update_command_files dry_run ;;
  _update_claude_md_include dry_run ;;
  when (negb dry_run) save ;;
  gets result.

End Run.

(** *** The words of the properties *)

(** The state a run ends in, whether it returns or raises. *)
Definition exec {A : Type} (m : M A) (s : State) : State := fst (m s).

(** [returns m]: no run of [m] raises. *)
Definition returns {A : Type} (m : M A) : Prop :=
  forall s, exists a, snd (m s) = inr a.

(** The operations a run attempted. *)
Definition new_ops (s s' : State) : list op := skipn (length (trace s)) (trace s').

(** The operations that only read. *)
Definition read_only (o : op) : Prop :=
  match o with
  | ReadText _ | Stat _ | ReadResource _ _ => True
  | _ => False
  end.

(** The operations of a backup: the directory, and copies below it. *)
Definition backup_root : string := ".quaestor/.backup/".

Definition backup_ops (o : op) : Prop :=
  match o with
  | Mkdir _ => True
  | Copy _ dst => startswith backup_root dst = true
  | _ => False
  end.

(** The operations on the files and the commands: neither the version,
    nor the save, nor a copy of the backup. *)
Definition file_stage_op (o : op) : Prop :=
  match o with
  | SetVersion _ | Save | Copy _ _ => False
  | _ => True
  end.

(** The shipped text of a resource (lines 273-276). *)
Definition shipped (env : Env) (resource_name : string) : exn + string :=
  if startswith "templates/" resource_name
  then resources env "quaestor.templates" (replace resource_name "templates/" EmptyString)
  else resources env "quaestor" resource_name.

(** A path is accounted for when one of the four lists holds it. *)
Definition accounted (p : string) (r : UpdateResult) : Prop :=
  In p (updated r) \/ In p (added r) \/ In p (skipped r)
  \/ In p (List.map fst (failed r)).

End Updater.

(** ** A project to run the updater on

    The user has edited [MEMORY.md] since the tool wrote it: its text is
    no longer the one of the baseline in the manifest.  No other file of
    [.quaestor] exists yet.  Every resource but [missing] can be read,
    and no operation fails. *)

Module Scenario.
Import Py Updater.

Definition memory_md : string := ".quaestor/MEMORY.md".
Definition claude_rules_md : string := ".quaestor/QUAESTOR_CLAUDE.md".

Definition memory_candidate : string * string :=
  ("templates/MEMORY.template.md", memory_md).
Definition claude_rules_candidate : string * string :=
  ("QUAESTOR_CLAUDE.md", claude_rules_md).

Definition demo_env (missing : string) : Env :=
  MkEnv "0.5.0" ["task.md"]
    "<!-- QUAESTOR CONFIG START -->" "<!-- QUAESTOR CONFIG END -->"
    (fun p =>
       if String.eqb p memory_md || String.eqb p ".quaestor/ARCHITECTURE.md"
       then USER_EDITABLE else SYSTEM)
    (fun _ => None)
    (fun text => text)
    (fun package name =>
       if String.eqb name missing then inl "No such file or directory"
       else inr ("shipped " +:+ name))
    (fun _ => None)
    "20240101_120000".

(** The environment of [demo_env] in which the directory of the project
    may not be searched: the existence test of [CLAUDE.md] raises. *)
Definition unsearchable_env : Env :=
  let env := demo_env EmptyString in
  MkEnv (version env) (COMMAND_FILES env)
    (QUAESTOR_CONFIG_START env) (QUAESTOR_CONFIG_END env)
    (categorize_file env) (extract_version_from_content env)
    (fingerprint env) (resources env)
    (fun o =>
       match o with
       | Stat p => if String.eqb p "CLAUDE.md" then Some "Permission denied" else None
       | _ => None
       end)
    (now env).

Definition edited_manifest : Manifest :=
  MkManifest (Some "0.4.0")
    {[ memory_md := MkEntry USER_EDITABLE "1.0" "first text" "20230101_000000" ]}.

Definition edited_state : State :=
  MkState {[ memory_md := "my notes" ]} ∅ edited_manifest edited_manifest
    new_result [].

End Scenario.

(** ** What [check_for_updates] plans (lines 62-156)

    The dictionary [updates] is a record, handed from one method to the
    next.  The preview of line 87 goes to the console, which the state
    does not hold, and is left out.  The plan is the one made when the
    existence tests of lines 105 and 131 answer: they are [exists_]. *)

Module Planner.
Import Py Updater.

Record Updates : Type := MkUpdates {
  needs_update : bool;
  current_version : option string;
  new_version : string;
  to_update : list (string * string * string);   (* files.update *)
  to_add : list (string * string);                (* files.add *)
  to_skip : list (string * string * string)       (* files.skip *)
}.

Definition plan_update (x : string * string * string) (u : Updates) : Updates :=
  MkUpdates (needs_update u) (current_version u) (new_version u)
    (to_update u ++ [x]) (to_add u) (to_skip u).
Definition plan_add (x : string * string) (u : Updates) : Updates :=
  MkUpdates (needs_update u) (current_version u) (new_version u)
    (to_update u) (to_add u ++ [x]) (to_skip u).
Definition plan_skip (x : string * string * string) (u : Updates) : Updates :=
  MkUpdates (needs_update u) (current_version u) (new_version u)
    (to_update u) (to_add u) (to_skip u ++ [x]).

Section Plan.
Variable env : Env.

(** [file_type.value], the text of a member of the enumeration, and the
    truth of [manifest_info.get("user_modified")]: both belong to
    [quaestor.core.project_metadata], which is not among the sources. *)
Variable type_value : FileType -> string.
Variable user_modified : ManifestEntry -> bool.

(** Modelled from the spec: [FileManifest.get_quaestor_version] and
    [FileManifest.get_file_info], the version and the entry of a path
    that the manifest of section 3 holds. *)
Definition get_quaestor_version : M (option string) :=
  gets (fun s => quaestor_version (manifest s)).

Definition get_file_info (relative_path : string) : M (option ManifestEntry) :=
  gets (fun s => entries (manifest s) !! relative_path).

(** [_has_new_version] (lines 134-156): both branches of the test on the
    version answer [True]. *)
Definition _has_new_version (resource_path : string) : M bool :=
  try_except
    (let* content := read_resource env "quaestor" resource_path in
     let new_version := extract_version_from_content env content in
     match new_version with
     | None => ret true
     | Some v => if String.eqb v EmptyString then ret true else ret true
     end)
    (fun e => ret false).

Definition files_to_check : list (string * string) :=
  [ ("QUAESTOR_CLAUDE.md", path_join quaestor_dir "QUAESTOR_CLAUDE.md");
    ("CRITICAL_RULES.md", path_join quaestor_dir "CRITICAL_RULES.md");
    ("templates/ARCHITECTURE.template.md", path_join quaestor_dir "ARCHITECTURE.md");
    ("templates/MEMORY.template.md", path_join quaestor_dir "MEMORY.md") ].

(** One turn of the loop of [_check_quaestor_files] (lines 100-123). *)
Definition check_quaestor_file (candidate : string * string) (updates : Updates) : M Updates :=
  let resource_path := fst candidate in
  let target_path := snd candidate in
  let relative_path := target_path in
  let file_type := categorize_file env relative_path in
  let* present := exists_ target_path in
  if negb present then
    ret (plan_add (relative_path, type_value file_type) updates)
  else
    let* manifest_info := get_file_info relative_path in
    match file_type with
    | SYSTEM =>
        let* newer := _has_new_version resource_path in
        if newer
        then ret (plan_update (relative_path, type_value file_type, "version changed") updates)
        else ret updates
    | USER_EDITABLE =>
        match manifest_info with
        | Some info =>
            if user_modified info
            then ret (plan_skip (relative_path, type_value file_type, "user modified") updates)
            else ret updates
        | None =>
            ret (plan_skip (relative_path, type_value file_type, "existing file") updates)
        end
    | _ => ret updates
    end.

(** [for x in l: updates = body(x, updates)]. *)
Fixpoint fold_each {A : Type} (l : list A) (body : A -> Updates -> M Updates)
    (updates : Updates) : M Updates :=
  match l with
  | [] => ret updates
  | x :: l' => let* updates := body x updates in fold_each l' body updates
  end.

Definition _check_quaestor_files (updates : Updates) : M Updates :=
  fold_each files_to_check check_quaestor_file updates.

(** [_check_command_files] (lines 125-132). *)
Definition check_command_file (cmd_file : string) (updates : Updates) : M Updates :=
  let* present := command_exists cmd_file in
  if negb present
  then ret (plan_add ("commands/" +:+ cmd_file, type_value COMMAND) updates)
  else ret updates.

Definition _check_command_files (updates : Updates) : M Updates :=
  fold_each (COMMAND_FILES env) check_command_file updates.

(** [check_for_updates] (lines 62-89).  With [show_diff] the plan is
    also printed on the console, which is no part of the state: the flag
    has no other use. *)
Definition check_for_updates (show_diff : bool) : M Updates :=
  let* current := get_quaestor_version in
  let updates := MkUpdates false current (version env) [] [] [] in
  let updates :=
    if negb (bool_decide (current_version updates = Some (new_version updates)))
    then MkUpdates true (current_version updates) (new_version updates)
           (to_update updates) (to_add updates) (to_skip updates)
    else updates in
  let* updates := _check_quaestor_files updates in
  let* updates := _check_command_files updates in
  ret updates.

End Plan.

End Planner.

(** ** The summary of a result ([UpdateResult.summary], lines 33-44) *)

Module Report.
Import Py Updater.

(** [sep.join(parts)]. *)
Fixpoint join (sep : string) (parts : list string) : string :=
  match parts with
  | [] => EmptyString
  | [x] => x
  | x :: rest => x +:+ sep +:+ join sep rest
  end.

Definition part {A : Type} (l : list A) (word : string) : list string :=
  match l with
  | [] => []
  | _ => [str_nat (List.length l) +:+ " " +:+ word]
  end.

Definition summary (r : UpdateResult) : string :=
  let parts :=
    part (updated r) "updated" ++ part (added r) "added"
    ++ part (skipped r) "skipped" ++ part (failed r) "failed" in
  match parts with
  | [] => "No changes"
  | _ => join ", " parts
  end.

End Report.

(** ** The data of a project ([get_project_data], lines 10-41)

    What [quaestor.utils] finds out about the project, and the languages
    of [languages.yaml], are given; a dictionary display with [**] is a
    sequence of updates, each of which keeps the place of a key that is
    already there. *)

Module ProjectData.
Import Py Template.

(** [d[key] = value]. *)
Fixpoint dict_set (d : context) (key : string) (v : value) : context :=
  match d with
  | [] => [(key, v)]
  | (k, w) :: d' =>
      if String.eqb k key then (k, v) :: d' else (k, w) :: dict_set d' key v
  end.

(** [{**d, **more}]. *)
Fixpoint dict_merge (d more : context) : context :=
  match more with
  | [] => d
  | (k, v) :: more' => dict_merge (dict_set d k v) more'
  end.

(** [languages.get(key, default)] on the dictionary of the languages. *)
Fixpoint get_config (languages : list (string * context)) (key : string)
    (default : context) : context :=
  match languages with
  | [] => default
  | (k, c) :: rest => if String.eqb k key then c else get_config rest key default
  end.

(** [v > n] for an integer [n]: a boolean counts as 0 or 1, and [None]
    or a string raises [TypeError]. *)
Definition greater (v : value) (n : Z) : exn + bool :=
  match v with
  | VInt z => inr (n <? z)%Z
  | VBool b => inr (n <? (if b then 1 else 0))%Z
  | VNone => inl "'>' not supported between instances of 'NoneType' and 'int'"
  | VStr _ => inl "'>' not supported between instances of 'str' and 'int'"
  end.

(** Line 31: [or] does not evaluate its second operand when the first
    is true. *)
Definition strict_mode (complexity_info : context) : exn + bool :=
  let* many_files := greater (get complexity_info "total_files" (VInt 0)) 50 in
  if many_files then inr true
  else greater (get complexity_info "max_directory_depth" (VInt 0)) 5.

Definition get_project_data (project_name project_type : string)
    (complexity_info : context) (language_configs : list (string * context))
    : exn + context :=
  let lang_config :=
    get_config language_configs project_type
      (get_config language_configs "unknown" []) in
  let* strict_mode := strict_mode complexity_info in
  inr (dict_merge
         (dict_merge
            [("project_name", VStr project_name);
             ("project_type", VStr project_type);
             ("strict_mode", VBool strict_mode)]
            lang_config)
         complexity_info).

End ProjectData.

(** * Properties *)

(** ** Text *)

Module TextFacts.
Import Py.

Lemma app_cons (c : ascii) (s t : string) : String c s +:+ t = String c (s +:+ t).
Proof. reflexivity. Qed.

Lemma app_nil_l (s : string) : EmptyString +:+ s = s.
Proof. reflexivity. Qed.

Lemma app_nil_r (s : string) : s +:+ EmptyString = s.
Proof. induction s as [|c s IH]; [reflexivity | rewrite app_cons; congruence]. Qed.

Lemma app_assoc (a b c : string) : (a +:+ b) +:+ c = a +:+ (b +:+ c).
Proof. induction a as [|x a IH]; [reflexivity | rewrite !app_cons; simpl; congruence]. Qed.


Lemma all_app (p : ascii -> bool) (a b : string) :
  all p (a +:+ b) = all p a && all p b.
Proof.
  induction a as [|x a IH]; [reflexivity|].
  rewrite app_cons. simpl. rewrite IH. now rewrite andb_assoc.
Qed.

Lemma all_impl (p r : ascii -> bool) (s : string) :
  (forall c, p c = true -> r c = true) -> all p s = true -> all r s = true.
Proof.
  intros Hpr. induction s as [|c s IH]; simpl; [reflexivity|].
  intros [Hc Hs]%andb_true_iff. rewrite (Hpr c Hc). now apply IH.
Qed.

Definition not_brace (c : ascii) : bool := negb (Ascii.eqb c "{").
Definition digit_or_minus (c : ascii) : bool := is_digit c || Ascii.eqb c "-".

(** The decimal text of an integer holds digits and at most a sign. *)
Lemma string_of_uint_digits (d : Decimal.uint) :
  all digit_or_minus (NilEmpty.string_of_uint d) = true.
Proof. induction d; simpl; auto. Qed.

Lemma str_int_digits (z : Z) : all digit_or_minus (str_int z) = true.
Proof.
  unfold str_int.
  assert (H : forall d, all digit_or_minus (NilZero.string_of_uint d) = true).
  { intros d. destruct d; try reflexivity; apply (string_of_uint_digits (_ d)). }
  destruct (Z.to_int z); simpl; auto.
Qed.

Lemma digit_or_minus_plain (c : ascii) :
  digit_or_minus c = true -> not_bslash c && not_brace c = true.
Proof.
  destruct c as [[] [] [] [] [] [] [] []]; vm_compute; congruence.
Qed.

Lemma lower_char_brace (c : ascii) :
  not_brace (lower_char c) = not_brace c.
Proof. destruct c as [[] [] [] [] [] [] [] []]; reflexivity. Qed.

Lemma lower_braceless (s : string) :
  all not_brace (lower s) = all not_brace s.
Proof.
  induction s as [|c s IH]; simpl; [reflexivity|].
  now rewrite lower_char_brace, IH.
Qed.

End TextFacts.

(** ** The matcher

    [denotes p w]: the text [w] is in the language of [p].  Whatever the
    matcher finds is a word of the language, at the head of its
    subject. *)

Module ReFacts.
Import Py Re TextFacts.

Fixpoint denotes (p : regex) (w : string) : Prop :=
  match p with
  | [] => w = EmptyString
  | Lit c :: p' => exists w', w = String c w' /\ denotes p' w'
  | Rep c least _ :: p' =>
      exists u v, w = u +:+ v /\ all (in_cls c) u = true
                  /\ least <= String.length u /\ denotes p' v
  | Open _ :: p' => denotes p' w
  | Close _ :: p' => denotes p' w
  end.

(** The matcher, started at offset [i] on [s], consumed [w]. *)
Definition consumed (D : string -> Prop) (s : string) (i : nat) (r : mres) : Prop :=
  exists w s', s = w +:+ s' /\ fst r = i + String.length w /\ D w.

Section RepeatSound.
Variable c : cls.
Variable k : string -> nat -> option mres.
Variable D : string -> Prop.
Hypothesis k_sound : forall s i r, k s i = Some r -> consumed D s i r.

Definition repeated (least : nat) (w : string) : Prop :=
  exists u v, w = u +:+ v /\ all (in_cls c) u = true
              /\ least <= String.length u /\ D v.

Lemma stop_sound (least : nat) (s : string) (i : nat) (r : mres) :
  stop k least s i = Some r -> consumed (repeated least) s i r.
Proof.
  destruct least as [|n]; simpl; [|discriminate].
  intros (w & s' & -> & He & Hw)%k_sound.
  exists w, s'. repeat split; trivial.
  exists EmptyString, w. repeat split; trivial.
Qed.

Lemma consumed_step (least : nat) (a : ascii) (s : string) (i : nat) (r : mres) :
  in_cls c a = true ->
  consumed (repeated (pred least)) s (S i) r ->
  consumed (repeated least) (String a s) i r.
Proof.
  intros Ha (w & s' & -> & He & u & v & -> & Hu & Hn & Hv).
  exists (String a (u +:+ v)), s'. repeat split.
  - rewrite He. simpl. lia.
  - exists (String a u), v. repeat split; trivial.
    + simpl. now rewrite Ha.
    + simpl. lia.
Qed.

Lemma rep_greedy_sound (s : string) :
  forall least i r,
    rep_greedy c k least s i = Some r -> consumed (repeated least) s i r.
Proof.
  induction s as [|a s IH]; intros least i r; simpl.
  - apply stop_sound.
  - destruct (in_cls c a) eqn:Ha; [|apply stop_sound].
    destruct (rep_greedy c k (pred least) s (S i)) as [r'|] eqn:Hrec.
    + intros [= <-]. apply consumed_step; auto.
    + apply stop_sound.
Qed.

Lemma rep_lazy_sound (s : string) :
  forall least i r,
    rep_lazy c k least s i = Some r -> consumed (repeated least) s i r.
Proof.
  induction s as [|a s IH]; intros least i r; simpl.
  - destruct (stop k least EmptyString i) eqn:Hs; [|discriminate].
    intros [= <-]. now apply stop_sound.
  - destruct (stop k least (String a s) i) eqn:Hs.
    + intros [= <-]. now apply stop_sound.
    + destruct (in_cls c a) eqn:Ha; [|discriminate].
      intros H. apply consumed_step; auto.
Qed.
End RepeatSound.

Lemma matches_sound (p : regex) :
  forall s i r, matches p s i = Some r -> consumed (denotes p) s i r.
Proof.
  induction p as [|it p IH]; intros s i r; simpl.
  - intros [= <-]. exists EmptyString, s. simpl. repeat split; trivial; lia.
  - destruct it as [c | c least [] | g | g].
    + destruct s as [|a s]; [discriminate|].
      destruct (Ascii.eqb_spec a c) as [->|]; [|discriminate].
      intros (w & s' & -> & He & Hw)%IH.
      exists (String c w), s'. repeat split.
      * rewrite He. simpl. lia.
      * now exists w.
    + intros H. apply (rep_greedy_sound c _ (denotes p) IH) in H.
      destruct H as (w & s' & -> & He & Hw). now exists w, s'.
    + intros H. apply (rep_lazy_sound c _ (denotes p) IH) in H.
      destruct H as (w & s' & -> & He & Hw). now exists w, s'.
    + destruct (matches p s i) as [[e ms]|] eqn:Hm; [|discriminate].
      intros [= <-]. apply IH in Hm. exact Hm.
    + destruct (matches p s i) as [[e ms]|] eqn:Hm; [|discriminate].
      intros [= <-]. apply IH in Hm. exact Hm.
Qed.

Lemma denotes_lit (k : string) (p : regex) (w : string) :
  denotes (lit k ++ p) w -> exists w', w = k +:+ w' /\ denotes p w'.
Proof.
  revert w. induction k as [|c k IH]; intros w; simpl.
  - intros H. now exists w.
  - intros (w1 & -> & (w2 & -> & H)%IH). now exists w2.
Qed.

Lemma denotes_rep (c : cls) (least : nat) (greedy : bool) (p : regex) (w : string) :
  denotes (Rep c least greedy :: p) w ->
  exists u v, w = u +:+ v /\ all (in_cls c) u = true /\ denotes p v.
Proof. intros (u & v & -> & Hu & _ & Hv). now exists u, v. Qed.

(** A subject without an opening brace is left as it is by every pattern
    that starts with one. *)
Lemma sub_go_braceless (p : regex) (f : Match -> string) (s : string) :
  all not_brace s = true -> sub_go (Lit "{" :: p) f s 0 = s.
Proof.
  induction s as [|a s IH]; simpl; [reflexivity|].
  intros [Ha Hs]%andb_true_iff. unfold not_brace in Ha.
  destruct (Ascii.eqb a "{"); [discriminate|]. now rewrite IH.
Qed.

(** No match at the head, and no pair of braces further on: nothing is
    replaced. *)
Lemma sub_go_no_pair (p : regex) (f : Match -> string) (s : string) :
  contains "{{" s = false -> sub_go (Lit "{" :: Lit "{" :: p) f s 0 = s.
Proof.
  induction s as [|a s IH]; [reflexivity|].
  intros H. cbn [contains] in H. apply orb_false_iff in H as [Hh Ht].
  cbn [sub_go]. rewrite (IH Ht).
  assert (Hm : matches (Lit "{" :: Lit "{" :: p) (String a s) 0 = None).
  { simpl. destruct (Ascii.eqb_spec a "{") as [->|]; [|reflexivity].
    destruct s as [|b s]; [reflexivity|].
    destruct (Ascii.eqb_spec b "{") as [->|]; [|reflexivity].
    discriminate Hh. }
  now rewrite Hm.
Qed.

Lemma sub_go_head_only (p : regex) (f : Match -> string) (a : ascii) (s : string) :
  matches (Lit "{" :: Lit "{" :: p) (String a s) 0 = None ->
  contains "{{" s = false ->
  sub_go (Lit "{" :: Lit "{" :: p) f (String a s) 0 = String a s.
Proof.
  intros Hm Hs. cbn [sub_go]. rewrite Hm. now rewrite sub_go_no_pair.
Qed.

(** A replacement without a backslash is taken as it is. *)
Lemma parse_go_plain (n : nat) (repl : string) :
  all not_bslash repl = true -> exists ts, parse_go n repl 0 = inr ts.
Proof.
  induction repl as [|a s IH]; simpl; [now exists []|].
  intros [Ha Hs]%andb_true_iff. unfold not_bslash in Ha.
  destruct (Ascii.eqb a bslash); [discriminate|].
  destruct (IH Hs) as [ts ->]. eauto.
Qed.

Lemma sub_plain (p : regex) (repl s : string) :
  all not_bslash repl = true ->
  exists ts, sub p repl s = inr (sub_fn p (expand ts) s).
Proof.
  intros H. unfold sub, parse_template.
  destruct (parse_go_plain (groups p) repl H) as [ts ->]. now exists ts.
Qed.

Lemma sub_plain_braceless (p : regex) (repl s : string) :
  all not_bslash repl = true -> all not_brace s = true ->
  sub (Lit "{" :: p) repl s = inr s.
Proof.
  intros Hr Hs. destruct (sub_plain (Lit "{" :: p) repl s Hr) as [ts ->].
  unfold sub_fn. now rewrite sub_go_braceless.
Qed.

End ReFacts.

(** ** The template engine *)

Module TemplateFacts.
Import Py Re Template TextFacts ReFacts.

(** [strip p s]: [s] without its longest head in [p]. *)
Fixpoint strip (p : ascii -> bool) (s : string) : string :=
  match s with
  | EmptyString => EmptyString
  | String c s' => if p c then strip p s' else s
  end.

Lemma strip_app (p : ascii -> bool) (u t : string) :
  all p u = true -> strip p (u +:+ t) = strip p t.
Proof.
  induction u as [|c u IH]; [reflexivity|].
  rewrite app_cons. simpl. intros [-> Hu]%andb_true_iff. now apply IH.
Qed.

Lemma word_not_space (c : ascii) : is_word c = true -> is_space c = false.
Proof. destruct c as [[] [] [] [] [] [] [] []]; vm_compute; congruence. Qed.

Lemma in_cls_space (a : ascii) : in_cls space a = is_space a.
Proof. unfold in_cls, space. simpl. now destruct (is_space a). Qed.

(** Spaces, a word, spaces and a closing brace: stripping the three
    leaves the brace. *)
Lemma strip_placeholder (u k u2 t : string) :
  all is_space u = true -> all is_word k = true -> all is_space u2 = true ->
  strip is_space (strip is_word (strip is_space (u +:+ k +:+ u2 +:+ String "}" t)))
  = String "}" t.
Proof.
  intros Hu Hk Hu2. rewrite (strip_app _ u _ Hu).
  destruct k as [|c k].
  - rewrite app_nil_l, (strip_app _ u2 _ Hu2). reflexivity.
  - simpl in Hk. apply andb_true_iff in Hk as [Hc Hk].
    rewrite app_cons. cbn [strip]. rewrite (word_not_space c Hc).
    cbn [strip]. rewrite Hc, (strip_app _ k _ Hk).
    assert (Hw : strip is_word (u2 +:+ String "}" t) = u2 +:+ String "}" t).
    { destruct u2 as [|d u2]; [reflexivity|].
      rewrite app_cons. simpl. simpl in Hu2.
      apply andb_true_iff in Hu2 as [Hd _].
      destruct (is_word d) eqn:Hwd; [|reflexivity].
      apply word_not_space in Hwd. congruence. }
    rewrite Hw, (strip_app _ u2 _ Hu2). reflexivity.
Qed.

Definition opens_with_brace (p : regex) : bool :=
  match p with
  | Lit c :: _ => Ascii.eqb c "{"
  | _ => false
  end.

Definition opens_with_braces (p : regex) : bool :=
  match p with
  | Lit a :: Lit b :: _ => Ascii.eqb a "{" && Ascii.eqb b "{"
  | _ => false
  end.

Lemma sub_untouched (p : regex) (repl s : string) :
  opens_with_brace p = true ->
  all not_bslash repl = true -> all not_brace s = true ->
  sub p repl s = inr s.
Proof.
  destruct p as [|[c| | |] p]; try discriminate. simpl.
  intros ->%Ascii.eqb_eq. apply sub_plain_braceless.
Qed.

Lemma sub_fn_head_only (p : regex) (f : Match -> string) (a : ascii) (s : string) :
  opens_with_braces p = true ->
  matches p (String a s) 0 = None -> contains "{{" s = false ->
  sub_fn p f (String a s) = String a s.
Proof.
  destruct p as [|[c| | |] [|[d| | |] p]]; try discriminate. simpl.
  intros [->%Ascii.eqb_eq ->%Ascii.eqb_eq]%andb_true_iff.
  apply sub_go_head_only.
Qed.

(** *** The performance-target expression *)

Definition expr_tail : string := Eval vm_compute in drop 1 performance_expr.

Lemma performance_expr_head : performance_expr = String "{" expr_tail.
Proof. reflexivity. Qed.

(** No simple placeholder of a key made of word characters matches the
    expression. *)
Lemma simple_pattern_misses (key : string) :
  all is_word key = true ->
  matches (simple_pattern key) performance_expr 0 = None.
Proof.
  intros Hk.
  destruct (matches (simple_pattern key) performance_expr 0) as [r|] eqn:Hm;
    [exfalso|reflexivity].
  apply matches_sound in Hm. destruct Hm as (w & s' & Hw & _ & Hd).
  unfold simple_pattern in Hd.
  apply denotes_lit in Hd as (w1 & -> & Hd).
  apply denotes_rep in Hd as (u & w2 & -> & Hu & Hd).
  apply denotes_lit in Hd as (w3 & -> & Hd).
  apply denotes_rep in Hd as (u2 & w4 & -> & Hu2 & Hd).
  destruct Hd as (w5 & -> & w6 & -> & ->).
  apply (f_equal (drop 2)) in Hw. rewrite !app_assoc in Hw.
  change (drop 2 ("{{" +:+ ?x)) with x in Hw.
  apply (f_equal (fun t => strip is_space (strip is_word (strip is_space t)))) in Hw.
  rewrite !app_cons, app_nil_l in Hw.
  rewrite strip_placeholder in Hw; trivial.
  - vm_compute in Hw. discriminate Hw.
  - erewrite all_impl; [reflexivity| |exact Hu]. intros c. now rewrite in_cls_space.
  - erewrite all_impl; [reflexivity| |exact Hu2]. intros c. now rewrite in_cls_space.
Qed.

Lemma digits_no_bslash (z : Z) : all not_bslash (str_int z) = true.
Proof.
  apply (all_impl digit_or_minus); [|apply str_int_digits].
  intros c [H _]%digit_or_minus_plain%andb_true_iff. exact H.
Qed.

Lemma digits_no_brace (z : Z) : all not_brace (str_int z) = true.
Proof.
  apply (all_impl digit_or_minus); [|apply str_int_digits].
  intros c [_ H]%digit_or_minus_plain%andb_true_iff. exact H.
Qed.

Lemma str_no_bslash (v : value) :
  no_backslash v = true -> all not_bslash (str v) = true.
Proof.
  destruct v as [|[]|z|s]; simpl; trivial. intros _. apply digits_no_bslash.
Qed.

Lemma subst_text_no_bslash (v : value) :
  no_backslash v = true -> all not_bslash (subst_text v) = true.
Proof.
  destruct v as [|[]|z|s]; simpl; trivial. intros _. apply digits_no_bslash.
Qed.

Lemma get_no_backslash (data : context) (key : string) (d : value) :
  Forall (fun kv => no_backslash (snd kv) = true) data ->
  no_backslash d = true -> no_backslash (get data key d) = true.
Proof.
  intros H Hd. induction H as [|[k v] data Hv _ IH]; simpl; [exact Hd|].
  destruct (String.eqb k key); [exact Hv | exact IH].
Qed.

(** The first stage leaves the expression as it is. *)
Lemma substitute_misses (data : context) :
  Forall (fun kv => all is_word (fst kv) = true) data ->
  Forall (fun kv => no_backslash (snd kv) = true) data ->
  substitute data performance_expr = inr performance_expr.
Proof.
  intros Hk Hv. induction data as [|[key v] data IH]; [reflexivity|].
  inversion_clear Hk as [|? ? Hkey Hk']. inversion_clear Hv as [|? ? Hval Hv'].
  simpl in Hkey, Hval. cbn [substitute].
  destruct (sub_plain (simple_pattern key) (subst_text v) performance_expr
              (subst_text_no_bslash v Hval)) as [ts ->].
  cbn [Template.bind]. rewrite performance_expr_head at 1.
  rewrite sub_fn_head_only.
  - rewrite <- performance_expr_head. now apply IH.
  - reflexivity.
  - rewrite <- performance_expr_head. now apply simple_pattern_misses.
  - reflexivity.
Qed.

(** The string-literal form does not match the expression; the
    value-or-default form matches all of it. *)
Lemma conditional_misses (f : Match -> string) :
  sub_fn conditional_pattern f performance_expr = performance_expr.
Proof. vm_compute. reflexivity. Qed.

Lemma value_conditional_hits :
  exists mt,
    (forall f, sub_fn value_conditional_pattern f performance_expr = f mt)
    /\ group mt 1 = target_key /\ group mt 2 = target_key /\ group mt 3 = "200".
Proof.
  eexists. split; [|split; [|split]].
  - intros f. vm_compute. apply app_nil_r.
  - vm_compute. reflexivity.
  - vm_compute. reflexivity.
  - vm_compute. reflexivity.
Qed.

(** A value that holds as a condition has a text without braces. *)
Lemma holds_no_brace (v : value) :
  holds v = true -> all not_brace (str v) = true.
Proof.
  destruct v as [|[]|z|s]; simpl; try discriminate; trivial.
  - intros _. apply digits_no_brace.
  - rewrite <- lower_braceless.
    intros H. repeat apply orb_true_iff in H as [H|H];
      apply String.eqb_eq in H; rewrite H; reflexivity.
Qed.

Lemma get_defaults (data : context) (key : string) (d1 d2 : value) :
  get data key d1 = get data key d2
  \/ (get data key d1 = d1 /\ get data key d2 = d2).
Proof.
  induction data as [|[k v] data IH]; simpl; [now right|].
  destruct (String.eqb k key); [now left | exact IH].
Qed.

(** The later stages leave a text without braces as it is. *)
Lemma specific_patterns_untouched (content : string) (data : context) :
  Forall (fun kv => no_backslash (snd kv) = true) data ->
  all not_brace content = true ->
  _process_specific_patterns content data = inr content.
Proof.
  intros Hv Hc. unfold _process_specific_patterns.
  pose proof (str_no_bslash _ (get_no_backslash data "coverage_threshold" VNone Hv eq_refl)) as Hcov.
  pose proof (str_no_bslash _ (get_no_backslash data "performance_target_ms" (VInt 200) Hv eq_refl)) as Hperf.
  assert (Hfirst :
    (if truthy (get data "coverage_threshold" VNone)
     then Template.bind
            (sub threshold_or_optional_pattern
               (">=" +:+ str (get data "coverage_threshold" VNone) +:+ "%") content)
            (fun content0 =>
               sub threshold_or_default_pattern
                 (str (get data "coverage_threshold" VNone) +:+ "%") content0)
     else Template.bind (sub threshold_or_optional_pattern "optional" content)
            (fun content0 => sub threshold_or_default_pattern "80%" content0))
    = inr content).
  { destruct (truthy _);
      (rewrite sub_untouched; [cbn [Template.bind]; apply sub_untouched|..]);
      trivial; rewrite ?all_app, ?Hcov; trivial. }
  rewrite Hfirst. cbn [Template.bind].
  rewrite sub_untouched; trivial.
  - cbn [Template.bind]. apply sub_untouched; trivial.
  - destruct (get data "project_type" (VStr "unknown")) as [| | |s]; trivial.
    now destruct (String.eqb s "web").
Qed.

(** With values free of backslashes, rendering returns. *)
Lemma specific_patterns_return (content : string) (data : context) :
  Forall (fun kv => no_backslash (snd kv) = true) data ->
  exists out, _process_specific_patterns content data = inr out.
Proof.
  intros Hv. unfold _process_specific_patterns.
  pose proof (str_no_bslash _ (get_no_backslash data "coverage_threshold" VNone Hv eq_refl)) as Hcov.
  pose proof (str_no_bslash _ (get_no_backslash data "performance_target_ms" (VInt 200) Hv eq_refl)) as Hperf.
  set (web := match get data "project_type" (VStr "unknown") with
              | VStr s => if String.eqb s "web" then "true" else "false"
              | _ => "false"
              end).
  assert (Hweb : all not_bslash web = true).
  { subst web. destruct (get data "project_type" (VStr "unknown")) as [| | |s]; trivial.
    now destruct (String.eqb s "web"). }
  assert (Hge : all not_bslash (">=" +:+ str (get data "coverage_threshold" VNone) +:+ "%") = true)
    by now rewrite !all_app, Hcov.
  assert (Hpc : all not_bslash (str (get data "coverage_threshold" VNone) +:+ "%") = true)
    by now rewrite !all_app, Hcov.
  destruct (truthy _).
  - destruct (sub_plain threshold_or_optional_pattern _ content Hge) as [t1 ->].
    cbn [Template.bind].
    destruct (sub_plain threshold_or_default_pattern _
                (sub_fn threshold_or_optional_pattern (expand t1) content) Hpc) as [t2 ->].
    cbn [Template.bind].
    destruct (sub_plain web_flag_pattern web
                (sub_fn threshold_or_default_pattern (expand t2)
                   (sub_fn threshold_or_optional_pattern (expand t1) content)) Hweb) as [t3 ->].
    cbn [Template.bind].
    destruct (sub_plain performance_target_pattern _
                (sub_fn web_flag_pattern (expand t3)
                   (sub_fn threshold_or_default_pattern (expand t2)
                      (sub_fn threshold_or_optional_pattern (expand t1) content))) Hperf)
      as [t4 ->].
    eauto.
  - destruct (sub_plain threshold_or_optional_pattern "optional" content eq_refl) as [t1 ->].
    cbn [Template.bind].
    destruct (sub_plain threshold_or_default_pattern "80%"
                (sub_fn threshold_or_optional_pattern (expand t1) content) eq_refl) as [t2 ->].
    cbn [Template.bind].
    destruct (sub_plain web_flag_pattern web
                (sub_fn threshold_or_default_pattern (expand t2)
                   (sub_fn threshold_or_optional_pattern (expand t1) content)) Hweb) as [t3 ->].
    cbn [Template.bind].
    destruct (sub_plain performance_target_pattern _
                (sub_fn web_flag_pattern (expand t3)
                   (sub_fn threshold_or_default_pattern (expand t2)
                      (sub_fn threshold_or_optional_pattern (expand t1) content))) Hperf)
      as [t4 ->].
    eauto.
Qed.

Lemma substitute_returns (data : context) :
  Forall (fun kv => no_backslash (snd kv) = true) data ->
  forall content, exists out, substitute data content = inr out.
Proof.
  induction 1 as [|[key v] data Hv _ IH]; intros content; [now exists content|].
  cbn [substitute].
  destruct (sub_plain (simple_pattern key) (subst_text v) content
              (subst_text_no_bslash v Hv)) as [ts ->].
  cbn [Template.bind]. apply IH.
Qed.

Lemma process_template_returns (template : string) (data : context) :
  Forall (fun kv => no_backslash (snd kv) = true) data ->
  exists out, process_template template data = inr out.
Proof.
  intros Hv. unfold process_template.
  destruct (substitute_returns data Hv template) as [c1 ->]. cbn [Template.bind].
  unfold _process_conditionals.
  destruct (specific_patterns_return
              (sub_fn value_conditional_pattern (replace_value_conditional data)
                 (sub_fn conditional_pattern (replace_conditional data) c1)) data Hv)
    as [c2 ->].
  cbn [Template.bind].
  destruct (sub_plain cleanup_pattern EmptyString c2 eq_refl) as [ts ->]. eauto.
Qed.

(** *** The claims on the template engine *)

(** C2, at a failing input.  The cleanup of line 70 makes one pass from
    left to right: it leaves a placeholder whose body is empty or holds a
    closing brace, and the text around a removed placeholder may join
    into a new one, which stays in the output. *)
Theorem cleanup_leaves_placeholders :
  process_template "{{a}{{b}}}" [] = inr "{{a}}"
  /\ process_template "{{}}" [] = inr "{{}}"
  /\ process_template "{{ a } b }}" [] = inr "{{ a } b }}".
Proof. repeat split; vm_compute; reflexivity. Qed.

(** C3, at a failing input.  A value with a backslash before a letter is
    refused as a replacement by [re.sub], and the exception leaves
    [render_template_string], although the template has no placeholder at
    all; a reference that cannot be resolved does render as nothing. *)
Theorem render_raises_on_backslash :
  render_template_string "x" [("project_name", VStr "my\proj")] = inl "bad escape"
  /\ render_template_string "Hello {{ nobody }}!" [] = inr "Hello !".
Proof. split; vm_compute; reflexivity. Qed.

(** C6.  The threshold-or-optional template renders to [Coverage: >=85%]
    under a context with [coverage_threshold] 85, and to
    [Coverage: optional] under the empty context. *)
Theorem threshold_or_optional_scenarios :
  process_template coverage_template [("coverage_threshold", VInt 85)]
  = inr "Coverage: >=85%"
  /\ process_template coverage_template [] = inr "Coverage: optional".
Proof. split; vm_compute; reflexivity. Qed.

(** C7 as stated fails: with [performance_target_ms] present and 0, the
    expression renders to 200, not to the text 0 of the value; so it does
    with the string 150, which does not hold as a condition. *)
Lemma performance_target_zero :
  process_template performance_expr [(target_key, VInt 0)] = inr "200"
  /\ process_template performance_expr [(target_key, VInt 0)]
     <> inr (str (VInt 0))
  /\ process_template performance_expr [(target_key, VStr "150")] = inr "200".
Proof.
  split; [vm_compute; reflexivity | split].
  - vm_compute. discriminate.
  - vm_compute. reflexivity.
Qed.

(** C7, amended.  Under a context whose keys are made of word characters
    and whose values hold no backslash, the performance-target expression
    renders to the text [str(v)] of the value [v] of
    [performance_target_ms] when the key is present and [v] holds as a
    condition, and to 200 when the key is absent or [v] does not hold. *)
Theorem performance_target_rendering (data : context) :
  Forall (fun kv => all is_word (fst kv) = true) data ->
  Forall (fun kv => no_backslash (snd kv) = true) data ->
  process_template performance_expr data
  = inr (if holds (get data target_key (VBool false))
         then str (get data target_key (VStr EmptyString))
         else "200").
Proof.
  intros Hk Hv. unfold process_template.
  rewrite (substitute_misses data Hk Hv). cbn [Template.bind].
  unfold _process_conditionals. rewrite conditional_misses.
  destruct value_conditional_hits as (mt & Hf & H1 & H2 & H3).
  rewrite Hf. unfold replace_value_conditional, condition. rewrite H1, H2, H3.
  set (out := if holds (get data target_key (VBool false))
              then str (get data target_key (VStr EmptyString)) else "200").
  assert (Hout : all not_brace out = true).
  { subst out. destruct (holds (get data target_key (VBool false))) eqn:Hh; [|reflexivity].
    destruct (get_defaults data target_key (VBool false) (VStr EmptyString)) as [He|[He _]].
    - rewrite <- He. now apply holds_no_brace.
    - rewrite He in Hh. discriminate Hh. }
  rewrite (specific_patterns_untouched out data Hv Hout). cbn [Template.bind].
  now apply sub_untouched.
Qed.

Lemma performance_target_rendering_witness :
  Forall (fun kv => all is_word (fst kv) = true) [(target_key, VInt 150)]
  /\ Forall (fun kv => no_backslash (snd kv) = true) [(target_key, VInt 150)]
  /\ process_template performance_expr [(target_key, VInt 150)] = inr "150".
Proof.
  assert (Hk : Forall (fun kv => all is_word (fst kv) = true) [(target_key, VInt 150)])
    by (repeat constructor).
  assert (Hv : Forall (fun kv => no_backslash (snd kv) = true) [(target_key, VInt 150)])
    by (repeat constructor).
  split; [exact Hk | split; [exact Hv|]].
  exact (performance_target_rendering [(target_key, VInt 150)] Hk Hv).
Defined.

(** C8, at a failing input.  The class of line 231 that stands for a
    character no name may hold also takes the closing brace, so that a
    match runs from the first placeholder into the second: the body
    [a.b] holds a dot and no keyword, and yet no issue is reported for
    it, because the [+] of the second placeholder is in the same match.
    Alone, the same placeholder is reported. *)
Theorem validator_misses_invalid_name :
  validate_template "t.md" (Some (inr "{{ a.b }} {{ c+d }}")) = (true, [])
  /\ findall invalid_pattern "{{ a.b }} {{ c+d }}" = ["a.b }} {{ c+d "]
  /\ validate_template "t.md" (Some (inr "{{ a.b }}"))
     = (false, ["Invalid variable name: a.b "]).
Proof. repeat split; vm_compute; reflexivity. Qed.

End TemplateFacts.

(** ** The updater

    A run is followed through the operations it attempts: [changes P s s']
    says that from [s] to [s'] the trace grew by operations in [P], and
    that whatever the new operations do not touch is as it was. *)

Module UpdaterFacts.
Import Py Updater.

(** The operations that write the file [p] of the project tree. *)
Definition writes (p : string) (o : op) : Prop :=
  match o with
  | WriteText p' => p' = p
  | Copy _ dst => dst = p
  | _ => False
  end.

Definition sets_version (o : op) : Prop :=
  match o with SetVersion _ => True | _ => False end.

Definition tracks (o : op) : Prop :=
  match o with TrackFile _ => True | _ => False end.

Inductive changes (P : op -> Prop) (s s' : State) : Prop :=
| MkChanges (new_ops : list op)
    (ch_trace : trace s' = trace s ++ new_ops)
    (ch_ops : Forall P new_ops)
    (ch_files : forall p, Forall (fun o => ~ writes p o) new_ops ->
                  files s' !! p = files s !! p)
    (ch_commands : forall c, Forall (fun o => o <> WriteCommand c) new_ops ->
                  commands s' !! c = commands s !! c)
    (ch_saved : Forall (fun o => o <> Save) new_ops -> saved s' = saved s)
    (ch_version : Forall (fun o => ~ sets_version o) new_ops ->
                  quaestor_version (manifest s') = quaestor_version (manifest s))
    (ch_manifest : Forall (fun o => ~ sets_version o /\ ~ tracks o) new_ops ->
                  manifest s' = manifest s).

Lemma changes_refl (P : op -> Prop) (s : State) : changes P s s.
Proof. apply (MkChanges P s s []); auto. now rewrite app_nil_r. Qed.

Lemma changes_trans (P : op -> Prop) (s1 s2 s3 : State) :
  changes P s1 s2 -> changes P s2 s3 -> changes P s1 s3.
Proof.
  intros [e1 Ht1 Ho1 Hf1 Hc1 Hs1 Hv1 Hm1] [e2 Ht2 Ho2 Hf2 Hc2 Hs2 Hv2 Hm2].
  apply (MkChanges P s1 s3 (e1 ++ e2)).
  - now rewrite Ht2, Ht1, app_assoc.
  - now apply Forall_app.
  - intros p [H1 H2]%Forall_app. now rewrite Hf2, Hf1.
  - intros c [H1 H2]%Forall_app. now rewrite Hc2, Hc1.
  - intros [H1 H2]%Forall_app. now rewrite Hs2, Hs1.
  - intros [H1 H2]%Forall_app. now rewrite Hv2, Hv1.
  - intros [H1 H2]%Forall_app. now rewrite Hm2, Hm1.
Qed.

Lemma changes_weaken (P Q : op -> Prop) (s s' : State) :
  (forall o, P o -> Q o) -> changes P s s' -> changes Q s s'.
Proof.
  intros HPQ [e Ht Ho Hf Hc Hs Hv Hm]. apply (MkChanges Q s s' e); trivial.
  eapply Forall_impl; eauto.
Qed.

(** The new operations of a run are determined by the two traces. *)
Lemma changes_ops (P : op -> Prop) (s s' : State) (ops : list op) :
  changes P s s' -> trace s' = trace s ++ ops -> Forall P ops.
Proof.
  intros [e Ht Ho _ _ _ _ _] H. rewrite Ht in H.
  apply app_inv_head in H. now subst.
Qed.

Global Instance changes_preorder (P : op -> Prop) : PreOrder (changes P).
Proof.
  split; [intros s; apply changes_refl | intros s1 s2 s3; apply changes_trans].
Qed.

(** What a run reports: the lists of the result grow, by paths in [U]
    for [updated], in [K] for [skipped] and in [A] for [added]. *)
Inductive reports (U K A : string -> Prop) (s s' : State) : Prop :=
| MkReports (u k a : list string) (f : list (string * string))
    (rp_updated : updated (result s') = updated (result s) ++ u)
    (rp_skipped : skipped (result s') = skipped (result s) ++ k)
    (rp_added : added (result s') = added (result s) ++ a)
    (rp_failed : failed (result s') = failed (result s) ++ f)
    (rp_U : Forall U u) (rp_K : Forall K k) (rp_A : Forall A a).

Global Instance reports_preorder (U K A : string -> Prop) : PreOrder (reports U K A).
Proof.
  split.
  - intros s. apply (MkReports U K A s s [] [] [] []); auto; now rewrite app_nil_r.
  - intros s1 s2 s3 [u1 k1 a1 f1 E1 E2 E3 E4 HU1 HK1 HA1] [u2 k2 a2 f2 F1 F2 F3 F4 HU2 HK2 HA2].
    apply (MkReports U K A s1 s3 (u1 ++ u2) (k1 ++ k2) (a1 ++ a2) (f1 ++ f2));
      rewrite ?F1, ?F2, ?F3, ?F4, ?E1, ?E2, ?E3, ?E4, ?app_assoc; trivial;
      now apply Forall_app.
Qed.

Lemma reports_weaken (U K A U' K' A' : string -> Prop) (s s' : State) :
  (forall p, U p -> U' p) -> (forall p, K p -> K' p) -> (forall p, A p -> A' p) ->
  reports U K A s s' -> reports U' K' A' s s'.
Proof.
  intros HU HK HA [u k a f E1 E2 E3 E4 H1 H2 H3].
  apply (MkReports U' K' A' s s' u k a f); trivial; eapply Forall_impl; eauto.
Qed.

(** [keeps R m]: every run of [m] takes a state to one that [R] relates
    to it, whether it returns or raises. *)
Definition keeps {A : Type} (R : State -> State -> Prop) (m : M A) : Prop :=
  forall s, R s (exec m s).

Section Keeps.
Context (R : State -> State -> Prop) `{!PreOrder R}.

Lemma keeps_ret {A : Type} (a : A) : keeps R (ret a).
Proof. intros s. reflexivity. Qed.

Lemma keeps_raise {A : Type} (e : exn) : keeps R (@raise A e).
Proof. intros s. reflexivity. Qed.

Lemma keeps_gets {A : Type} (f : State -> A) : keeps R (gets f).
Proof. intros s. reflexivity. Qed.

Lemma keeps_bind {A B : Type} (m : M A) (f : A -> M B) :
  keeps R m -> (forall a, keeps R (f a)) -> keeps R (bind m f).
Proof.
  intros Hm Hf s. unfold exec, bind. specialize (Hm s). unfold exec in Hm.
  destruct (m s) as [s1 [e|a]]; simpl in *; [exact Hm|].
  etransitivity; [exact Hm | apply Hf].
Qed.

Lemma keeps_try {A : Type} (body : M A) (handler : exn -> M A) :
  keeps R body -> (forall e, keeps R (handler e)) -> keeps R (try_except body handler).
Proof.
  intros Hb Hh s. unfold exec, try_except. specialize (Hb s). unfold exec in Hb.
  destruct (body s) as [s1 [e|a]]; simpl in *; [|exact Hb].
  etransitivity; [exact Hb | apply Hh].
Qed.

Lemma keeps_for {A : Type} (l : list A) (body : A -> M unit) :
  (forall x, In x l -> keeps R (body x)) -> keeps R (for_each l body).
Proof.
  induction l as [|x l IH]; intros H; simpl.
  - apply keeps_ret.
  - apply keeps_bind; [apply H; now left|]. intros _. apply IH.
    intros y Hy. apply H. now right.
Qed.

Lemma keeps_when (b : bool) (m : M unit) : keeps R m -> keeps R (when b m).
Proof. destruct b; simpl; [trivial | intros _; apply keeps_ret]. Qed.

Lemma keeps_if {A : Type} (b : bool) (m1 m2 : M A) :
  keeps R m1 -> keeps R m2 -> keeps R (if b then m1 else m2).
Proof. now destruct b. Qed.

End Keeps.

Section Changes.
Variable env : Env.
Variable P : op -> Prop.

Lemma changes_set_result (f : UpdateResult -> UpdateResult) :
  keeps (changes P) (modify (set_result f)).
Proof.
  intros s. apply (MkChanges P _ _ []); simpl; auto. now rewrite app_nil_r.
Qed.

Lemma changes_log (o : op) (s : State) : P o -> changes P s (log o s).
Proof.
  intros Ho. apply (MkChanges P _ _ [o]); simpl; auto.
Qed.

Lemma changes_attempt (o : op) : P o -> keeps (changes P) (attempt env o).
Proof.
  intros Ho s. unfold exec, attempt. destruct (fault env o); now apply changes_log.
Qed.

Lemma changes_read_resource (package name : string) :
  P (ReadResource package name) -> keeps (changes P) (read_resource env package name).
Proof.
  intros Ho s. unfold exec, read_resource, bind, modify. simpl.
  destruct (resources env package name); now apply changes_log.
Qed.

Lemma changes_read_text (path : string) :
  P (ReadText path) -> keeps (changes P) (read_text env path).
Proof.
  intros Ho. unfold read_text. apply keeps_bind; [apply _ | now apply changes_attempt|].
  intros _. apply keeps_bind; [apply _ | apply keeps_gets; apply _|].
  intros [text|]; [apply keeps_ret | apply keeps_raise]; apply _.
Qed.

Lemma changes_write_text (path content : string) :
  P (WriteText path) -> keeps (changes P) (write_text env path content).
Proof.
  intros Ho s. unfold exec, write_text, bind, attempt, modify.
  destruct (fault env (WriteText path)); simpl; [now apply changes_log|].
  apply (MkChanges P _ _ [WriteText path]); simpl; auto.
  intros p Hp. apply Forall_inv in Hp. simpl in Hp.
  now rewrite lookup_insert_ne.
Qed.

Lemma changes_copy (src dst : string) :
  P (Copy src dst) -> keeps (changes P) (copy env src dst).
Proof.
  intros Ho s. unfold exec, copy, bind, attempt, gets, modify, raise.
  destruct (fault env (Copy src dst)); simpl; [now apply changes_log|].
  destruct (files s !! src) as [text|]; simpl; [|now apply changes_log].
  apply (MkChanges P _ _ [Copy src dst]); simpl; auto.
  intros p Hp. apply Forall_inv in Hp. simpl in Hp.
  now rewrite lookup_insert_ne.
Qed.

Lemma changes_write_command (name content : string) :
  P (WriteCommand name) -> keeps (changes P) (write_command env name content).
Proof.
  intros Ho s. unfold exec, write_command, bind, attempt, modify.
  destruct (fault env (WriteCommand name)); simpl; [now apply changes_log|].
  apply (MkChanges P _ _ [WriteCommand name]); simpl; auto.
  intros c Hc. apply Forall_inv in Hc.
  rewrite lookup_insert_ne; congruence.
Qed.

Lemma changes_set_quaestor_version (v : string) :
  P (SetVersion v) -> keeps (changes P) (set_quaestor_version v).
Proof.
  intros Ho s. apply (MkChanges P _ _ [SetVersion v]); simpl; auto.
  - intros H. apply Forall_inv in H. now simpl in H.
  - intros H. apply Forall_inv in H. now simpl in H.
Qed.

Lemma changes_track_file (path : string) (file_type : FileType) (v : string) :
  P (TrackFile path) -> keeps (changes P) (track_file env path file_type v).
Proof.
  intros Ho s. apply (MkChanges P _ _ [TrackFile path]); simpl; auto.
  intros H. apply Forall_inv in H. now simpl in H.
Qed.

Lemma changes_save : P Save -> keeps (changes P) (save env).
Proof.
  intros Ho s. unfold exec, save, bind, attempt, modify.
  destruct (fault env Save); simpl; [now apply changes_log|].
  apply (MkChanges P _ _ [Save]); simpl; auto.
  intros H. apply Forall_inv in H. congruence.
Qed.

End Changes.

(** The result is touched by the [append_] statements only. *)
Definition same_result (s s' : State) : Prop := result s' = result s.

Global Instance same_result_preorder : PreOrder same_result.
Proof. split; unfold same_result; [intros s | intros s1 s2 s3]; congruence. Qed.

Definition silent {A : Type} (m : M A) : Prop := keeps same_result m.

Lemma reports_silent {A : Type} (U K A' : string -> Prop) (m : M A) :
  silent m -> keeps (reports U K A') m.
Proof.
  intros H s. apply (MkReports U K A' _ _ [] [] [] []); auto;
    rewrite (H s); now rewrite app_nil_r.
Qed.

(** The structure of a statement, taken apart; [prim] is what closes the
    statements that are not composed. *)
Ltac keep_with prim :=
  repeat first
    [ prim
    | apply keeps_ret; apply _
    | apply keeps_raise; apply _
    | apply keeps_gets; apply _
    | apply keeps_for; [apply _ | intros ? ?]
    | apply keeps_try; [apply _ | | intros ?]
    | apply keeps_when; [apply _ |]
    | apply keeps_if; [apply _ | |]
    | apply keeps_bind; [apply _ | | intros ?]
    | match goal with
      | |- keeps _ (match ?x with _ => _ end) => destruct x
      end ].

Section Silent.
Variable env : Env.

Lemma silent_attempt (o : op) : silent (attempt env o).
Proof. intros s. unfold exec, attempt. now destruct (fault env o). Qed.

Lemma silent_modify (f : State -> State) :
  (forall s, result (f s) = result s) -> silent (modify f).
Proof. intros H s. apply H. Qed.

Ltac silent_prim :=
  first [ apply silent_attempt | apply silent_modify; intros ?; reflexivity ].

Lemma silent_read_resource (package name : string) :
  silent (read_resource env package name).
Proof. unfold read_resource. keep_with silent_prim. Qed.

Lemma silent_read_text (path : string) : silent (read_text env path).
Proof. unfold read_text. keep_with silent_prim. Qed.

Lemma silent_write_text (path content : string) : silent (write_text env path content).
Proof. unfold write_text. keep_with silent_prim. Qed.

Lemma silent_copy (src dst : string) : silent (copy env src dst).
Proof. unfold copy. keep_with silent_prim. Qed.

Lemma silent_write_command (name content : string) :
  silent (write_command env name content).
Proof. unfold write_command. keep_with silent_prim. Qed.

Lemma silent_set_quaestor_version (v : string) : silent (set_quaestor_version v).
Proof. unfold set_quaestor_version. keep_with silent_prim. Qed.

Lemma silent_track_file (path : string) (file_type : FileType) (v : string) :
  silent (track_file env path file_type v).
Proof. unfold track_file. keep_with silent_prim. Qed.

Lemma silent_save : silent (save env).
Proof. unfold save. keep_with silent_prim. Qed.

End Silent.

Section Reports.
Variables U K A : string -> Prop.

Lemma reports_updated (p : string) : U p -> keeps (reports U K A) (append_updated p).
Proof.
  intros H s. apply (MkReports U K A _ _ [p] [] [] []); simpl; auto;
    now rewrite app_nil_r.
Qed.

Lemma reports_skipped (p : string) : K p -> keeps (reports U K A) (append_skipped p).
Proof.
  intros H s. apply (MkReports U K A _ _ [] [p] [] []); simpl; auto;
    now rewrite app_nil_r.
Qed.

Lemma reports_added (p : string) : A p -> keeps (reports U K A) (append_added p).
Proof.
  intros H s. apply (MkReports U K A _ _ [] [] [p] []); simpl; auto;
    now rewrite app_nil_r.
Qed.

Lemma reports_failed (p : string) (e : exn) : keeps (reports U K A) (append_failed p e).
Proof.
  intros s. apply (MkReports U K A _ _ [] [] [] [(p, e)]); simpl; auto;
    now rewrite app_nil_r.
Qed.

End Reports.

Ltac changes_prim :=
  first
    [ apply changes_set_result
    | apply changes_read_resource
    | apply changes_read_text
    | apply changes_write_text
    | apply changes_copy
    | apply changes_write_command
    | apply changes_set_quaestor_version
    | apply changes_track_file
    | apply changes_save
    | apply changes_attempt ].

Ltac reports_prim :=
  first
    [ apply reports_updated
    | apply reports_skipped
    | apply reports_added
    | apply reports_failed
    | apply reports_silent;
      first [ apply silent_read_resource | apply silent_read_text
            | apply silent_write_text | apply silent_copy
            | apply silent_write_command | apply silent_set_quaestor_version
            | apply silent_track_file | apply silent_save | apply silent_attempt ] ].

(** *** What each part of a run may do *)

(** One turn of the loop over the files of [.quaestor], for the file [p]. *)
Definition file_ops (dry_run : bool) (p : string) (o : op) : Prop :=
  match o with
  | ReadResource _ _ => True
  | Mkdir _ => dry_run = false
  | WriteText p' | TrackFile p' => dry_run = false /\ p' = p
  | _ => False
  end.

Definition command_ops (dry_run : bool) (o : op) : Prop :=
  match o with
  | ReadResource _ _ | MkdirCommands | WriteCommand _ => dry_run = false
  | _ => False
  end.

Definition claude_ops (dry_run : bool) (o : op) : Prop :=
  match o with
  | ReadResource _ _ => True
  | ReadText p | Stat p => p = "CLAUDE.md"
  | WriteText p => dry_run = false /\ p = "CLAUDE.md"
  | _ => False
  end.

Section Stages.
Variable env : Env.

Lemma changes_quaestor_file (force dry_run : bool) (candidate : string * string) :
  keeps (changes (file_ops dry_run (snd candidate)))
    (update_quaestor_file env force dry_run candidate).
Proof.
  destruct candidate as [resource_name p].
  unfold update_quaestor_file, quaestor_file_body, read_new_content,
    _should_update_file, exists_, is_file_modified, mkdir.
  destruct dry_run; cbn [when negb fst snd]; keep_with changes_prim; simpl; auto.
Qed.

Lemma changes_command_file (dry_run : bool) (cmd_file : string) :
  keeps (changes (command_ops dry_run)) (update_command_file env dry_run cmd_file).
Proof.
  unfold update_command_file, command_file_body, command_exists, mkdir_commands.
  destruct dry_run; cbn [when negb]; keep_with changes_prim; simpl; auto.
Qed.

Lemma changes_claude_md (dry_run : bool) :
  keeps (changes (claude_ops dry_run)) (_update_claude_md_include env dry_run).
Proof.
  unfold _update_claude_md_include, claude_md_body, exists_.
  destruct dry_run; cbn [when negb]; keep_with changes_prim; simpl; auto.
Qed.

Lemma changes_create_backup : keeps (changes backup_ops) (_create_backup env).
Proof.
  unfold _create_backup, mkdir, exists_. keep_with changes_prim; simpl; auto.
Qed.

End Stages.

(** *** Runs that do not raise *)

Lemma returns_ret {A : Type} (a : A) : returns (ret a).
Proof. intros s. now exists a. Qed.

Lemma returns_gets {A : Type} (f : State -> A) : returns (gets f).
Proof. intros s. now exists (f s). Qed.

Lemma returns_modify (f : State -> State) : returns (modify f).
Proof. intros s. now exists tt. Qed.

Lemma returns_bind {A B : Type} (m : M A) (f : A -> M B) :
  returns m -> (forall a, returns (f a)) -> returns (bind m f).
Proof.
  intros Hm Hf s. unfold bind. destruct (Hm s) as [a Ha].
  destruct (m s) as [s1 r]. simpl in Ha. subst r. apply Hf.
Qed.

Lemma returns_try {A : Type} (body : M A) (handler : exn -> M A) :
  (forall e, returns (handler e)) -> returns (try_except body handler).
Proof.
  intros Hh s. unfold try_except. destruct (body s) as [s1 [e|a]]; [apply Hh|].
  now exists a.
Qed.

Lemma returns_for {A : Type} (l : list A) (body : A -> M unit) :
  (forall x, returns (body x)) -> returns (for_each l body).
Proof.
  intros H. induction l as [|x l IH]; simpl; [apply returns_ret|].
  apply returns_bind; auto.
Qed.

Lemma returns_when (b : bool) (m : M unit) : returns m -> returns (when b m).
Proof. destruct b; simpl; [trivial | intros _; apply returns_ret]. Qed.

Lemma run_unit (m : M unit) (s : State) : returns m -> m s = (exec m s, inr tt).
Proof.
  intros H. unfold exec. destruct (H s) as [[] Ha].
  destruct (m s) as [s1 r]. simpl in *. now subst.
Qed.

Lemma run_then {B : Type} (m : M unit) (k : M B) (s : State) :
  returns m -> (m ;; k) s = k (exec m s).
Proof. intros H. unfold bind. now rewrite (run_unit m s H). Qed.

Lemma exec_then {B : Type} (m : M unit) (k : M B) (s : State) :
  returns m -> exec (m ;; k) s = exec k (exec m s).
Proof. intros H. unfold exec at 1 2. now rewrite (run_then m k s H). Qed.

Lemma exec_for_app {A : Type} (l1 l2 : list A) (body : A -> M unit) (s : State) :
  (forall x, returns (body x)) ->
  for_each (l1 ++ l2) body s = for_each l2 body (exec (for_each l1 body) s).
Proof.
  intros H. revert s. induction l1 as [|x l1 IH]; intros s; [reflexivity|].
  simpl. rewrite (run_then _ _ _ (H x)), (exec_then _ _ _ (H x)). apply IH.
Qed.

Section Returns.
Variable env : Env.

Lemma returns_quaestor_file (force dry_run : bool) (candidate : string * string) :
  returns (update_quaestor_file env force dry_run candidate).
Proof. apply returns_try. intros e. apply returns_modify. Qed.

Lemma returns_quaestor_files (force dry_run : bool) :
  returns (_update_quaestor_files env force dry_run).
Proof. apply returns_for. apply returns_quaestor_file. Qed.

Lemma returns_command_file (dry_run : bool) (cmd_file : string) :
  returns (update_command_file env dry_run cmd_file).
Proof. apply returns_try. intros e. apply returns_modify. Qed.

Lemma returns_command_files (dry_run : bool) :
  returns (_update_command_files env dry_run).
Proof. apply returns_for. apply returns_command_file. Qed.

(** The existence test of [CLAUDE.md] (line 323) answers. *)
Definition answers : bool :=
  match fault env (Stat "CLAUDE.md") with
  | None => true
  | Some _ => false
  end.

Lemma returns_claude_md (dry_run : bool) :
  fault env (Stat "CLAUDE.md") = None ->
  returns (_update_claude_md_include env dry_run).
Proof.
  intros H. unfold _update_claude_md_include. apply returns_bind.
  - intros s. unfold stat, bind, attempt, exists_, gets. rewrite H. eauto.
  - intros present. apply returns_when, returns_try. intros e. apply returns_modify.
Qed.

(** When the test fails, its exception leaves the method. *)
Lemma claude_md_raises (dry_run : bool) (e : exn) (s : State) :
  fault env (Stat "CLAUDE.md") = Some e ->
  _update_claude_md_include env dry_run s = (log (Stat "CLAUDE.md") s, inl e).
Proof.
  intros H. unfold _update_claude_md_include, stat, bind, attempt. now rewrite H.
Qed.

Lemma returns_create_backup : returns (_create_backup env).
Proof. apply returns_try. intros e. apply returns_ret. Qed.

(** What [update] does before the files: the new result, the backup and
    the version. *)
Definition prologue (backup dry_run : bool) : M unit :=
  modify (set_result (fun _ => new_result)) ;;
  when (backup && negb dry_run) (_create_backup env ;; ret tt) ;;
  when (negb dry_run) (set_quaestor_version (version env)).

Lemma returns_backup (b : bool) : returns (when b (_create_backup env ;; ret tt)).
Proof.
  apply returns_when, returns_bind; [apply returns_create_backup|].
  intros d. apply returns_ret.
Qed.

Lemma returns_set_version (b : bool) :
  returns (when b (set_quaestor_version (version env))).
Proof.
  apply returns_when. unfold set_quaestor_version.
  apply returns_bind; [apply returns_modify|]. intros _. apply returns_modify.
Qed.

Lemma exec_prologue (backup dry_run : bool) (s : State) :
  exec (prologue backup dry_run) s
  = exec (when (negb dry_run) (set_quaestor_version (version env)))
      (exec (when (backup && negb dry_run) (_create_backup env ;; ret tt))
         (set_result (fun _ => new_result) s)).
Proof.
  unfold prologue.
  rewrite (exec_then _ _ _ (returns_modify _)).
  now rewrite (exec_then _ _ _ (returns_backup _)).
Qed.

(** The state before the manifest is saved. *)
Definition before_save (backup force dry_run : bool) (s : State) : State :=
  exec (_update_claude_md_include env dry_run)
    (exec (_update_command_files env dry_run)
       (exec (_update_quaestor_files env force dry_run)
          (exec (prologue backup dry_run) s))).

(** The run, from the turn of [CLAUDE.md] on. *)
Definition epilogue (dry_run : bool) : M UpdateResult :=
  _update_claude_md_include env dry_run ;;
  when (negb dry_run) (save env) ;;
  gets result.

Lemma update_epilogue (backup force dry_run : bool) (s : State) :
  update env backup force dry_run s
  = epilogue dry_run
      (exec (_update_command_files env dry_run)
         (exec (_update_quaestor_files env force dry_run)
            (exec (prologue backup dry_run) s))).
Proof.
  unfold update, epilogue. rewrite exec_prologue.
  rewrite (run_then _ _ _ (returns_modify _)).
  rewrite (run_then _ _ _ (returns_backup _)).
  rewrite (run_then _ _ _ (returns_set_version _)).
  rewrite (run_then _ _ _ (returns_quaestor_files force dry_run)).
  rewrite (run_then _ _ _ (returns_command_files dry_run)).
  reflexivity.
Qed.

(** When the test of [CLAUDE.md] answers, the run goes on to the save. *)
Lemma update_run (backup force dry_run : bool) (s : State) :
  fault env (Stat "CLAUDE.md") = None ->
  update env backup force dry_run s
  = (when (negb dry_run) (save env) ;; gets result) (before_save backup force dry_run s).
Proof.
  intros H. rewrite update_epilogue. unfold epilogue, before_save.
  now rewrite (run_then _ _ _ (returns_claude_md dry_run H)).
Qed.

(** When it fails, the run ends there: nothing is saved, and the
    exception leaves [update]. *)
Lemma update_raises (backup force dry_run : bool) (s : State) (e : exn) :
  fault env (Stat "CLAUDE.md") = Some e ->
  update env backup force dry_run s = (before_save backup force dry_run s, inl e).
Proof.
  intros H. rewrite update_epilogue. unfold epilogue, before_save, bind, exec.
  now rewrite (claude_md_raises dry_run e _ H).
Qed.

(** The manifest is saved when the run is not a dry run and the test of
    [CLAUDE.md] answers. *)
Definition saves (dry_run : bool) : bool := negb dry_run && answers.

(** The state a run ends in. *)
Lemma exec_update (backup force dry_run : bool) (s : State) :
  exec (update env backup force dry_run) s
  = exec (when (saves dry_run) (save env)) (before_save backup force dry_run s).
Proof.
  unfold saves, answers. destruct (fault env (Stat "CLAUDE.md")) as [e|] eqn:H.
  - unfold exec at 1. rewrite (update_raises _ _ _ _ e H).
    now rewrite andb_false_r.
  - unfold exec at 1. rewrite (update_run _ _ _ _ H). rewrite andb_true_r.
    unfold exec, bind, gets.
    now destruct (when (negb dry_run) (save env) _) as [s1 [e|[]]].
Qed.

Lemma result_update (backup force dry_run : bool) (s : State) :
  result (exec (update env backup force dry_run) s)
  = result (before_save backup force dry_run s).
Proof.
  rewrite exec_update.
  assert (Hs : silent (when (saves dry_run) (save env))).
  { apply keeps_when; [apply _ | apply silent_save]. }
  apply Hs.
Qed.

End Returns.

Lemma keeps_impl {A : Type} (R R' : State -> State -> Prop) (m : M A) :
  (forall s s', R s s' -> R' s s') -> keeps R m -> keeps R' m.
Proof. intros H Hm s. apply H, Hm. Qed.

Lemma keeps_changes_weaken {A : Type} (P Q : op -> Prop) (m : M A) :
  (forall o, P o -> Q o) -> keeps (changes P) m -> keeps (changes Q) m.
Proof. intros H. apply keeps_impl. intros s s'. now apply changes_weaken. Qed.

(** The operations of the three parts of [update] that work on files. *)
Definition files_ops (dry_run : bool) (o : op) : Prop :=
  (exists c, In c files_to_process /\ file_ops dry_run (snd c) o)
  \/ command_ops dry_run o \/ claude_ops dry_run o.

Section Files.
Variable env : Env.

Lemma changes_quaestor_files (force dry_run : bool) :
  keeps (changes (files_ops dry_run)) (_update_quaestor_files env force dry_run).
Proof.
  apply keeps_for; [apply _|]. intros c Hc.
  apply (keeps_changes_weaken (file_ops dry_run (snd c))).
  - intros o Ho. left. now exists c.
  - apply changes_quaestor_file.
Qed.

Lemma changes_command_files (dry_run : bool) :
  keeps (changes (files_ops dry_run)) (_update_command_files env dry_run).
Proof.
  apply keeps_for; [apply _|]. intros c Hc.
  apply (keeps_changes_weaken (command_ops dry_run)).
  - intros o Ho. right. now left.
  - apply changes_command_file.
Qed.

Lemma changes_claude_md_include (dry_run : bool) :
  keeps (changes (files_ops dry_run)) (_update_claude_md_include env dry_run).
Proof.
  apply (keeps_changes_weaken (claude_ops dry_run)).
  - intros o Ho. right. now right.
  - apply changes_claude_md.
Qed.

(** From the version to the save, a run does the operations of the three
    parts. *)
Lemma changes_files (backup force dry_run : bool) (s : State) :
  changes (files_ops dry_run) (exec (prologue env backup dry_run) s)
    (before_save env backup force dry_run s).
Proof.
  unfold before_save.
  etransitivity; [apply changes_quaestor_files|].
  etransitivity; [apply changes_command_files|].
  apply changes_claude_md_include.
Qed.

End Files.

Lemma files_ops_dry (o : op) : files_ops true o -> read_only o.
Proof.
  intros [(c & _ & H)|[H|H]]; destruct o; simpl in *;
    try tauto; try discriminate; destruct H; discriminate.
Qed.

(** A run of reads leaves the files, the commands and the manifest, in
    memory and on disk, as they were. *)
Lemma changes_read_only (s s' : State) :
  changes read_only s s' ->
  files s' = files s /\ commands s' = commands s /\ saved s' = saved s
  /\ manifest s' = manifest s.
Proof.
  intros [ops Ht Ho Hf Hc Hs Hv Hm].
  assert (Hall : forall Q : op -> Prop,
            (forall o, read_only o -> Q o) -> Forall Q ops).
  { intros Q HQ. eapply Forall_impl; [exact Ho | exact HQ]. }
  repeat split.
  - apply map_eq. intros p. apply Hf, Hall. intros o; destruct o; simpl; tauto.
  - apply map_eq. intros c. apply Hc, Hall. intros o; destruct o; simpl; easy.
  - apply Hs, Hall. intros o; destruct o; simpl; easy.
  - apply Hm, Hall. intros o; destruct o; simpl; tauto.
Qed.

Lemma prologue_dry (env : Env) (backup : bool) (s : State) :
  exec (prologue env backup true) s = set_result (fun _ => new_result) s.
Proof. rewrite exec_prologue, andb_false_r. reflexivity. Qed.

(** *** C4: a dry run *)

(** C4.  Whatever [force], [backup] and the state before, a run of
    [update] with [dry_run] leaves every file of the project, every
    command file, and the manifest, in memory and on disk, as they were:
    the only operations it attempts are reads.  It returns the result
    when the existence test of [CLAUDE.md] answers; when the test fails,
    its exception leaves [update], and nothing has changed either. *)
Theorem dry_run_changes_nothing (env : Env) (backup force : bool) (s : State) :
  let s' := exec (update env backup force true) s in
  files s' = files s /\ commands s' = commands s
  /\ saved s' = saved s /\ manifest s' = manifest s
  /\ (exists ops, trace s' = trace s ++ ops /\ Forall read_only ops)
  /\ (fault env (Stat "CLAUDE.md") = None ->
      snd (update env backup force true s) = inr (result s'))
  /\ (forall e, fault env (Stat "CLAUDE.md") = Some e ->
      snd (update env backup force true s) = inl e).
Proof.
  intros s'. subst s'. rewrite exec_update. cbn [saves negb andb when exec ret fst].
  assert (Hch : changes read_only s (before_save env backup force true s)).
  { transitivity (set_result (fun _ => new_result) s);
      [apply (changes_set_result read_only)|].
    rewrite <- (prologue_dry env backup s).
    eapply changes_weaken; [exact files_ops_dry | apply changes_files]. }
  destruct (changes_read_only _ _ Hch) as (Hf & Hc & Hs & Hm).
  repeat split; trivial.
  - destruct Hch as [ops Ht Ho _ _ _ _ _]. now exists ops.
  - intros Hstat. rewrite (update_run env backup force true s Hstat).
    cbn [negb when]. rewrite (run_then _ _ _ (returns_ret tt)). reflexivity.
  - intros e Hstat. now rewrite (update_raises env backup force true s e Hstat).
Qed.

(** *** C10: the version first, the save last *)

Lemma files_ops_stage (dry_run : bool) (o : op) : files_ops dry_run o -> file_stage_op o.
Proof.
  intros [(c & _ & H)|[H|H]]; destruct o; simpl in *; tauto.
Qed.

Lemma changes_backup (env : Env) (b : bool) :
  keeps (changes backup_ops) (when b (_create_backup env ;; ret tt)).
Proof.
  apply keeps_when; [apply _|]. apply keeps_bind; [apply _ | apply changes_create_backup|].
  intros d. apply keeps_ret. apply _.
Qed.

Lemma save_then_result (env : Env) (s : State) :
  match fault env Save with
  | Some e => (save env ;; gets result) s = (log Save s, inl e)
  | None =>
      (save env ;; gets result) s
      = (set_saved (manifest s) (log Save s), inr (result s))
  end.
Proof. unfold save, bind, attempt, modify, gets. now destruct (fault env Save). Qed.

(** C10, as the code has it.  A run of [update] that is not a dry run,
    whatever [force] and [backup]: after the copies of the backup, if
    any, the first operation is the recording of the version of the tool
    in the manifest, and the operations on the files follow.  When the
    existence test of [CLAUDE.md] answers, the last operation is the
    saving of the manifest, which holds that version; the run returns
    when the save does not fail, and the exception of the save leaves
    [update] when it does.  When the test fails, which no [try] catches,
    the run ends there: the manifest in memory holds the version, no
    save is attempted, the manifest on disk is the one of before, and
    the exception leaves [update]. *)
Theorem version_recorded_first_manifest_saved_last
    (env : Env) (backup force : bool) (s : State) :
  let s' := exec (update env backup force false) s in
  (exists before during,
      trace s' = trace s ++ before ++ [SetVersion (version env)] ++ during
                 ++ (if answers env then [Save] else [])
      /\ Forall backup_ops before /\ (backup = false -> before = [])
      /\ Forall file_stage_op during)
  /\ quaestor_version (manifest s') = Some (version env)
  /\ (fault env (Stat "CLAUDE.md") = None ->
      (fault env Save = None ->
       saved s' = manifest s'
       /\ snd (update env backup force false s) = inr (result s'))
      /\ (forall e, fault env Save = Some e ->
          snd (update env backup force false s) = inl e))
  /\ (forall e, fault env (Stat "CLAUDE.md") = Some e ->
      saved s' = saved s
      /\ ~ In Save (new_ops s s')
      /\ snd (update env backup force false s) = inl e).
Proof.
  intros s'.
  pose proof (changes_files env backup force false s) as Hfiles.
  rewrite exec_prologue in Hfiles. cbn [negb when andb] in *.
  rewrite andb_true_r in Hfiles.
  set (s0 := set_result (fun _ => new_result) s) in *.
  pose proof (changes_backup env backup s0) as Hbk.
  set (s1 := exec (when backup (_create_backup env;; ret ())) s0) in *.
  assert (Hno : backup = false -> s1 = s0) by (intros ->; reflexivity).
  set (bs := before_save env backup force false s) in *.
  destruct Hbk as [before Hb1 Hb2 _ _ Hb3 _ _].
  destruct Hfiles as [during Hd1 Hd2 _ _ Hd3 Hver _].
  assert (Hstage : Forall file_stage_op during).
  { eapply Forall_impl; [exact Hd2 | apply files_ops_stage]. }
  assert (Htrace : trace bs = trace s ++ before ++ [SetVersion (version env)] ++ during).
  { rewrite Hd1. cbn [exec set_quaestor_version bind modify fst trace log set_manifest].
    rewrite Hb1. subst s0. simpl. now rewrite <- !app_assoc. }
  assert (Hversion : quaestor_version (manifest bs) = Some (version env)).
  { rewrite Hver; [reflexivity|].
    eapply Forall_impl; [exact Hstage|]. intros o Ho. destruct o; simpl in *; tauto. }
  assert (Hbefore : backup = false -> before = []).
  { intros Hf. rewrite (Hno Hf) in Hb1.
    rewrite <- (app_nil_r (trace s0)) in Hb1 at 1. now apply app_inv_head in Hb1. }
  assert (Hsaved : saved bs = saved s).
  { rewrite Hd3.
    - cbn [exec set_quaestor_version bind modify fst saved log set_manifest].
      rewrite Hb3; [reflexivity|].
      eapply Forall_impl; [exact Hb2|]. intros o Ho. destruct o; simpl in *;
        try tauto; discriminate.
    - eapply Forall_impl; [exact Hstage|]. intros o Ho. destruct o; simpl in *;
        try tauto; discriminate. }
  assert (Hs' : s' = exec (when (answers env) (save env)) bs).
  { subst s'. now rewrite exec_update. }
  unfold answers in *.
  destruct (fault env (Stat "CLAUDE.md")) as [e0|] eqn:Hstat.
  - cbn [when exec ret fst] in Hs'. rewrite Hs'.
    split; [|split; [exact Hversion|split; [discriminate|]]].
    + exists before, during. rewrite Htrace, app_nil_r. repeat split; trivial.
    + intros e [= <-]. split; [exact Hsaved|]. split.
      * unfold new_ops. rewrite Htrace, drop_app_length.
        rewrite !in_app_iff. cbn [In].
        rewrite Forall_forall in Hb2, Hstage.
        intros [H | [[H | []] | H]]; [|discriminate|].
        -- apply (Hb2 Save). now apply list_elem_of_In.
        -- apply (Hstage Save). now apply list_elem_of_In.
      * now rewrite (update_raises env backup force false s e0 Hstat).
  - rewrite (update_run env backup force false s Hstat). cbn [negb when] in *.
    fold bs. pose proof (save_then_result env bs) as Hsv.
    assert (Hex : exec (save env) bs = fst ((save env ;; gets result) bs)).
    { unfold exec, bind, gets. now destruct (save env bs) as [s2 [e|[]]]. }
    rewrite Hs', Hex.
    destruct (fault env Save) as [e|] eqn:Hsave; rewrite Hsv;
      cbn [fst snd log set_saved trace manifest saved result].
    + split; [|split; [exact Hversion|split; [|discriminate]]].
      * exists before, during. rewrite Htrace, <- !app_assoc. repeat split; trivial.
      * intros _. split; [discriminate | now intros e' [= ->]].
    + split; [|split; [exact Hversion|split; [|discriminate]]].
      * exists before, during. rewrite Htrace, <- !app_assoc. repeat split; trivial.
      * intros _. split; [now split | discriminate].
Qed.

(** *** One file of [.quaestor] *)

(** Cases on what a statement tests, the innermost test first. *)
Ltac crunch :=
  repeat (cbn [fst snd] in *;
          match goal with
          | |- context [match ?x with _ => _ end] =>
              lazymatch x with
              | context [match _ with _ => _ end] => fail
              | _ =>
                  first
                    [ match goal with H : x = _ |- _ => rewrite H end
                    | destruct x eqn:? ]
              end
          end);
  cbn [fst snd] in *.

Ltac run_file :=
  cbv beta iota zeta delta
    [exec update_quaestor_file quaestor_file_body read_new_content
     _should_update_file try_except bind when read_resource write_text
     mkdir track_file attempt exists_ is_file_modified gets modify ret
     raise append_updated append_skipped append_added append_failed
     fst snd negb log set_result set_files set_manifest
     result files manifest trace saved commands] in *;
  crunch.

Ltac absurd_lookup :=
  exfalso;
  match goal with
  | H : bool_decide (is_Some (<[_:=_]> _ !! _)) = false |- _ =>
      rewrite lookup_insert_eq in H; apply bool_decide_eq_false in H;
      apply H; eauto
  end.

Section OneFile.
Variable env : Env.

(** One turn of the loop adds the path to one list of the result. *)
Lemma quaestor_file_result (force dry_run : bool) (resource_name p : string) (s : State) :
  let r := result s in
  let r' := result (exec (update_quaestor_file env force dry_run (resource_name, p)) s) in
  (exists e, r' = add_failed p e r)
  \/ (force = false /\ r' = add_skipped p r)
  \/ r' = add_updated p r
  \/ (dry_run = true /\ r' = add_added p r).
Proof.
  run_file.
  all: try (left; eexists; reflexivity).
  all: try (right; left; split; reflexivity).
  all: try (right; right; left; reflexivity).
  all: try (right; right; right; split; reflexivity).
  all: absurd_lookup.
Qed.

(** A resource that cannot be read: the path is reported as failed, with
    the text of the exception. *)
Lemma quaestor_file_unreadable (force dry_run : bool) (resource_name p : string)
    (s : State) (e : exn) :
  shipped env resource_name = inl e ->
  result (exec (update_quaestor_file env force dry_run (resource_name, p)) s)
  = add_failed p e (result s).
Proof.
  unfold shipped. intros H.
  destruct (startswith "templates/" resource_name) eqn:Hst; run_file; reflexivity.
Qed.

(** A write that was attempted and did not fail: the path is reported as
    updated. *)
Lemma quaestor_file_written (force : bool) (resource_name p : string)
    (s : State) (ops : list op) :
  let s' := exec (update_quaestor_file env force false (resource_name, p)) s in
  trace s' = trace s ++ ops -> In (WriteText p) ops ->
  fault env (WriteText p) = None ->
  result s' = add_updated p (result s).
Proof.
  intros s' Ht Hin Hf. subst s'. revert Ht.
  run_file. all: intros Ht; try reflexivity; try absurd_lookup.
  all: rewrite <- ?app_assoc in Ht; apply app_inv_head in Ht; subst ops;
    simpl in Hin; exfalso; intuition discriminate.
Qed.



End OneFile.

(** *** The lists of the result *)

Definition grows : State -> State -> Prop :=
  reports (fun _ => True) (fun _ => True) (fun _ => True).

Lemma grows_updated (s s' : State) (p : string) :
  grows s s' -> In p (updated (result s)) -> In p (updated (result s')).
Proof. intros [u k a f -> _ _ _ _ _ _] H. apply in_or_app. now left. Qed.

Lemma grows_skipped (s s' : State) (p : string) :
  grows s s' -> In p (skipped (result s)) -> In p (skipped (result s')).
Proof. intros [u k a f _ -> _ _ _ _ _] H. apply in_or_app. now left. Qed.

Lemma grows_added (s s' : State) (p : string) :
  grows s s' -> In p (added (result s)) -> In p (added (result s')).
Proof. intros [u k a f _ _ -> _ _ _ _] H. apply in_or_app. now left. Qed.

Lemma grows_failed (s s' : State) (x : string * string) :
  grows s s' -> In x (failed (result s)) -> In x (failed (result s')).
Proof. intros [u k a f _ _ _ -> _ _ _] H. apply in_or_app. now left. Qed.

Definition command_path (x : string) : Prop := startswith "commands/" x = true.

Section Lists.
Variable env : Env.

Lemma reports_quaestor_file (force dry_run : bool) (c : string * string) :
  keeps (reports (fun _ => True) (fun _ => force = false) (fun _ => dry_run = true))
    (update_quaestor_file env force dry_run c).
Proof.
  intros s. destruct c as [resource_name p].
  pose proof (quaestor_file_result env force dry_run resource_name p s) as H.
  cbv zeta in H.
  set (s' := exec (update_quaestor_file env force dry_run (resource_name, p)) s) in *.
  destruct H as [[e H]|[[Hf H]|[H|[Hd H]]]].
  - apply (MkReports _ _ _ s s' [] [] [] [(p, e)]); rewrite ?H, ?app_nil_r; auto.
  - apply (MkReports _ _ _ s s' [] [p] [] []); rewrite ?H, ?app_nil_r; auto.
  - apply (MkReports _ _ _ s s' [p] [] [] []); rewrite ?H, ?app_nil_r; auto.
  - apply (MkReports _ _ _ s s' [] [] [p] []); rewrite ?H, ?app_nil_r; auto.
Qed.

Lemma reports_command_file (dry_run : bool) (cmd_file : string) :
  keeps (reports (fun _ => False) (fun _ => False) command_path)
    (update_command_file env dry_run cmd_file).
Proof.
  unfold update_command_file, command_file_body, command_exists, mkdir_commands.
  keep_with reports_prim. reflexivity.
Qed.

Lemma reports_claude_md (dry_run : bool) :
  keeps (reports (fun _ => True) (fun _ => False) (fun _ => False))
    (_update_claude_md_include env dry_run).
Proof.
  unfold _update_claude_md_include, claude_md_body, exists_.
  keep_with reports_prim. exact I.
Qed.

(** What the lists of the result may hold, from the version to the
    save. *)
Definition listed (force dry_run : bool) : State -> State -> Prop :=
  reports (fun _ => True) (fun _ => force = false)
    (fun x => dry_run = true \/ command_path x).

Lemma listed_quaestor_file (force dry_run : bool) (c : string * string) :
  keeps (listed force dry_run) (update_quaestor_file env force dry_run c).
Proof.
  eapply keeps_impl; [|apply reports_quaestor_file].
  intros s s'. apply reports_weaken; auto.
Qed.

Lemma listed_quaestor_files (force dry_run : bool) (l : list (string * string)) :
  keeps (listed force dry_run) (for_each l (update_quaestor_file env force dry_run)).
Proof. apply keeps_for; [apply _|]. intros c _. apply listed_quaestor_file. Qed.

Lemma listed_command_files (force dry_run : bool) :
  keeps (listed force dry_run) (_update_command_files env dry_run).
Proof.
  apply keeps_for; [apply _|]. intros c _.
  eapply keeps_impl; [|apply reports_command_file].
  intros s s'. apply reports_weaken; auto; tauto.
Qed.

Lemma listed_claude_md (force dry_run : bool) :
  keeps (listed force dry_run) (_update_claude_md_include env dry_run).
Proof.
  eapply keeps_impl; [|apply reports_claude_md].
  intros s s'. apply reports_weaken; auto; tauto.
Qed.

Lemma listed_grows (force dry_run : bool) (s s' : State) :
  listed force dry_run s s' -> grows s s'.
Proof. apply reports_weaken; auto. Qed.

(** The prologue leaves a new result. *)
Lemma result_prologue (backup dry_run : bool) (s : State) :
  result (exec (prologue env backup dry_run) s) = new_result.
Proof.
  rewrite exec_prologue.
  assert (Hv : silent (when (negb dry_run) (set_quaestor_version (version env)))).
  { apply keeps_when; [apply _ | apply silent_set_quaestor_version]. }
  assert (Hb : silent (when (backup && negb dry_run) (_create_backup env;; ret ()))).
  { unfold silent, _create_backup, mkdir, exists_.
    keep_with ltac:(first [apply silent_copy | apply silent_attempt]). }
  rewrite (Hv _), (Hb _). reflexivity.
Qed.

End Lists.

(** *** Around one candidate *)

(** The operations that leave the file [p] alone. *)
Definition spares (p : string) (o : op) : Prop := ~ writes p o.

Lemma candidate_split (c : string * string) :
  In c files_to_process ->
  exists pre post,
    files_to_process = pre ++ c :: post
    /\ Forall (fun c' => snd c' <> snd c) pre
    /\ Forall (fun c' => snd c' <> snd c) post.
Proof.
  unfold files_to_process. intros [<-|[<-|[<-|[<-|[]]]]].
  - exists [], (tl files_to_process). repeat split; repeat constructor; discriminate.
  - exists (firstn 1 files_to_process), (skipn 2 files_to_process).
    repeat split; repeat constructor; discriminate.
  - exists (firstn 2 files_to_process), (skipn 3 files_to_process).
    repeat split; repeat constructor; discriminate.
  - exists (firstn 3 files_to_process), [].
    repeat split; repeat constructor; discriminate.
Qed.

(** A candidate is neither below the backup, nor [CLAUDE.md], nor the
    path of a command. *)
Lemma candidate_path (c : string * string) :
  In c files_to_process ->
  startswith backup_root (snd c) = false
  /\ snd c <> "CLAUDE.md" /\ ~ command_path (snd c).
Proof.
  unfold files_to_process, command_path.
  intros [<-|[<-|[<-|[<-|[]]]]]; repeat split; discriminate.
Qed.

Section Around.
Variable env : Env.
Variables force dry_run : bool.

Abbreviation step := (update_quaestor_file env force dry_run).

Lemma spares_others (p : string) (l : list (string * string)) :
  Forall (fun c' => snd c' <> p) l ->
  keeps (changes (spares p)) (for_each l step).
Proof.
  intros H. apply keeps_for; [apply _|]. intros c' Hc'.
  rewrite Forall_forall in H. specialize (H c' ltac:(now apply list_elem_of_In)).
  eapply keeps_changes_weaken; [|apply changes_quaestor_file].
  intros o Ho. unfold spares. destruct o; simpl in *; try tauto.
  destruct Ho as [_ ->]. exact H.
Qed.

Lemma spares_commands (p : string) :
  keeps (changes (spares p)) (_update_command_files env dry_run).
Proof.
  apply keeps_for; [apply _|]. intros c' _.
  eapply keeps_changes_weaken; [|apply changes_command_file].
  intros o Ho. unfold spares. destruct o; simpl in *; tauto.
Qed.

Lemma spares_claude_md (p : string) :
  p <> "CLAUDE.md" -> keeps (changes (spares p)) (_update_claude_md_include env dry_run).
Proof.
  intros Hp. eapply keeps_changes_weaken; [|apply changes_claude_md].
  intros o Ho. unfold spares. destruct o; simpl in *; try tauto.
  destruct Ho as [_ ->]. congruence.
Qed.

Lemma spares_save (p : string) (b : bool) :
  keeps (changes (spares p)) (when b (save env)).
Proof. apply keeps_when; [apply _|]. apply changes_save. unfold spares. simpl. tauto. Qed.

Lemma spares_prologue (p : string) (backup : bool) :
  startswith backup_root p = false ->
  keeps (changes (spares p)) (prologue env backup dry_run).
Proof.
  intros Hp. unfold prologue.
  apply keeps_bind; [apply _ | apply changes_set_result | intros _].
  apply keeps_bind; [apply _ | | intros _].
  - eapply keeps_changes_weaken; [|apply changes_backup].
    intros o Ho. unfold spares. destruct o; simpl in *; try tauto.
    intros ->. congruence.
  - apply keeps_when; [apply _|]. apply changes_set_quaestor_version.
    unfold spares. simpl. tauto.
Qed.

(** The run, cut at the turn of one candidate. *)
Definition before_file (backup : bool) (pre : list (string * string)) (s : State) : State :=
  exec (for_each pre step) (exec (prologue env backup dry_run) s).

Definition after_file (post : list (string * string)) (s : State) : State :=
  exec (when (saves env dry_run) (save env))
    (exec (_update_claude_md_include env dry_run)
       (exec (_update_command_files env dry_run)
          (exec (for_each post step) s))).

Lemma update_around (backup : bool) (pre post : list (string * string))
    (c : string * string) (s : State) :
  files_to_process = pre ++ c :: post ->
  exec (update env backup force dry_run) s
  = after_file post (exec (step c) (before_file backup pre s)).
Proof.
  intros Hsplit. rewrite exec_update. unfold before_save, after_file, before_file.
  do 3 f_equal. unfold _update_quaestor_files. rewrite Hsplit.
  unfold exec at 1.
  rewrite (exec_for_app pre (c :: post) _ _ (returns_quaestor_file env force dry_run)).
  cbn [for_each].
  now rewrite (run_then _ _ _ (returns_quaestor_file env force dry_run c)).
Qed.

Lemma spares_before (p : string) (backup : bool) (pre : list (string * string)) (s : State) :
  startswith backup_root p = false -> Forall (fun c' => snd c' <> p) pre ->
  changes (spares p) s (before_file backup pre s).
Proof.
  intros Hp Hpre. unfold before_file.
  etransitivity; [now apply spares_prologue | now apply spares_others].
Qed.

Lemma spares_after (p : string) (post : list (string * string)) (s : State) :
  p <> "CLAUDE.md" -> Forall (fun c' => snd c' <> p) post ->
  changes (spares p) s (after_file post s).
Proof.
  intros Hp Hpost. unfold after_file.
  transitivity (exec (for_each post step) s); [now apply spares_others|].
  etransitivity; [apply spares_commands|].
  etransitivity; [now apply spares_claude_md | apply spares_save].
Qed.

Lemma listed_after (post : list (string * string)) (s : State) :
  listed force dry_run s (after_file post s).
Proof.
  unfold after_file.
  transitivity (exec (for_each post step) s); [apply listed_quaestor_files|].
  etransitivity; [apply listed_command_files|].
  etransitivity; [apply listed_claude_md|].
  apply reports_silent. apply keeps_when; [apply _ | apply silent_save].
Qed.

(** The lists of the result of a run. *)
Lemma listed_update (backup : bool) (s : State) :
  let r := result (exec (update env backup force dry_run) s) in
  Forall (fun _ => force = false) (skipped r)
  /\ Forall (fun x => dry_run = true \/ command_path x) (added r).
Proof.
  intros r. subst r. rewrite result_update. unfold before_save.
  assert (H : listed force dry_run (exec (prologue env backup dry_run) s)
                (exec (_update_claude_md_include env dry_run)
                   (exec (_update_command_files env dry_run)
                      (exec (_update_quaestor_files env force dry_run)
                         (exec (prologue env backup dry_run) s))))).
  { transitivity (exec (_update_quaestor_files env force dry_run)
                     (exec (prologue env backup dry_run) s));
      [apply listed_quaestor_files|].
    etransitivity; [apply listed_command_files | apply listed_claude_md]. }
  destruct H as [u k a f _ Hk Ha _ _ HK HA].
  rewrite result_prologue in Hk, Ha. rewrite Hk, Ha. now split.
Qed.

End Around.

Lemma new_ops_app (s s' : State) (ops : list op) :
  trace s' = trace s ++ ops -> new_ops s s' = ops.
Proof. intros H. unfold new_ops. rewrite H. apply drop_app_length. Qed.

Lemma spares_file (p : string) (s s' : State) :
  changes (spares p) s s' ->
  files s' !! p = files s !! p /\ ~ In (WriteText p) (new_ops s s').
Proof.
  intros [ops Ht Ho Hf _ _ _ _]. split; [now apply Hf|].
  rewrite (new_ops_app s s' ops Ht). intros Hin.
  rewrite Forall_forall in Ho. apply (Ho (WriteText p)); [now apply list_elem_of_In|].
  reflexivity.
Qed.

(** The operations of a change may be told from the traces. *)
Lemma changes_refine (P Q : op -> Prop) (s s' : State) :
  changes P s s' ->
  (forall ops, trace s' = trace s ++ ops -> Forall Q ops) ->
  changes Q s s'.
Proof.
  intros [ops Ht Ho Hf Hc Hs Hv Hm] H.
  apply (MkChanges Q s s' ops); auto.
Qed.

(** *** C1: files of the user *)


(** *** C9: updated, never added *)

(** C9.  In a run of [update] that is not a dry run, a candidate of
    [.quaestor] whose write was attempted and did not fail is reported as
    updated, whether or not the file existed before the run, and the
    path of no candidate is reported as added. *)
Theorem written_file_is_updated
    (env : Env) (backup force : bool) (s : State) (c : string * string) :
  In c files_to_process ->
  let s' := exec (update env backup force false) s in
  (In (WriteText (snd c)) (new_ops s s') ->
   fault env (WriteText (snd c)) = None ->
   In (snd c) (updated (result s')))
  /\ ~ In (snd c) (added (result s')).
Proof.
  intros Hin s'. subst s'.
  destruct (candidate_split c Hin) as (pre & post & Hsplit & Hpre & Hpost).
  destruct (candidate_path c Hin) as (Hbk & Hcl & Hcmd).
  destruct c as [res p]. cbn [fst snd] in *. split.
  - rewrite (update_around env force false backup pre post (res, p) s Hsplit).
    pose proof (spares_before env force false p backup pre s Hbk Hpre) as Hb.
    set (s1 := before_file env force false backup pre s) in *.
    pose proof (changes_quaestor_file env force false (res, p) s1) as Hc.
    pose proof (quaestor_file_written env force res p s1) as Hw. cbv zeta in Hw.
    set (s2 := exec (update_quaestor_file env force false (res, p)) s1) in *.
    pose proof (spares_after env force false p post s2 Hcl Hpost) as Ha.
    pose proof (listed_grows _ _ _ _ (listed_after env force false post s2)) as Hg.
    set (s3 := after_file env force false post s2) in *.
    destruct Hb as [e1 Ht1 Ho1 _ _ _ _ _].
    destruct Hc as [e2 Ht2 _ _ _ _ _ _].
    destruct Ha as [e3 Ht3 Ho3 _ _ _ _ _].
    assert (Ht : trace s3 = trace s ++ (e1 ++ e2 ++ e3))
      by now rewrite Ht3, Ht2, Ht1, <- !app_assoc.
    rewrite (new_ops_app s s3 _ Ht). intros Hops Hf.
    apply (grows_updated s2 s3 p Hg).
    rewrite (Hw e2 Ht2); [simpl; apply in_or_app; right; now left| |exact Hf].
    apply in_app_or in Hops as [H|H]; [|apply in_app_or in H as [H|H]]; trivial.
    + rewrite Forall_forall in Ho1.
      destruct (Ho1 (WriteText p) ltac:(now apply list_elem_of_In)). reflexivity.
    + rewrite Forall_forall in Ho3.
      destruct (Ho3 (WriteText p) ltac:(now apply list_elem_of_In)). reflexivity.
  - intros Had. destruct (listed_update env force false backup s) as [_ Ha].
    rewrite Forall_forall in Ha.
    destruct (Ha p ltac:(now apply list_elem_of_In)) as [H|H]; [discriminate | auto].
Qed.

(** *** C5: one failure does not stop the run *)

(** A turn of a loop whose body raises reports the failure, and the loop
    goes on with the candidates that remain. *)
Lemma loop_goes_on {A : Type} (body : A -> M unit) (handler : A -> exn -> M unit)
    (pre post : list A) (x : A) (s0 s1 : State) (e : exn) :
  (forall y e', returns (handler y e')) ->
  body x (exec (for_each pre (fun y => try_except (body y) (handler y))) s0)
  = (s1, inl e) ->
  exec (for_each (pre ++ x :: post) (fun y => try_except (body y) (handler y))) s0
  = exec (for_each post (fun y => try_except (body y) (handler y)))
      (exec (handler x e) s1).
Proof.
  intros Hh Hb.
  assert (Hr : forall y, returns (try_except (body y) (handler y)))
    by (intros y; now apply returns_try).
  assert (Hx : exec (try_except (body x) (handler x))
                 (exec (for_each pre (fun y => try_except (body y) (handler y))) s0)
               = exec (handler x e) s1).
  { unfold exec at 1. unfold try_except at 1. now rewrite Hb. }
  unfold exec at 1. rewrite (exec_for_app pre (x :: post) _ _ Hr).
  cbn [for_each]. rewrite (run_then _ _ _ (Hr x)). now rewrite Hx.
Qed.

(** C5.  The loops over the files of [.quaestor] and over the command
    files never raise.  When the body of a turn raises, the pair of the
    path and the text of the exception is appended to [failed] and the
    loop goes on with the remaining candidates.  In the result of a run
    of [update], every candidate of [.quaestor] is in one of the four
    lists, and a candidate whose shipped resource cannot be read is in
    [failed] with the text of its exception.  The run returns the result
    when the existence test of [CLAUDE.md] answers and saving the
    manifest does not fail; when the test fails, which no [try] catches,
    this one failure is not set apart: its exception leaves [update],
    and no result is returned. *)
Theorem failures_are_isolated (env : Env) (backup force dry_run : bool) (s : State) :
  returns (_update_quaestor_files env force dry_run)
  /\ returns (_update_command_files env dry_run)
  /\ (forall pre c post s0 s1 e,
        files_to_process = pre ++ c :: post ->
        quaestor_file_body env force dry_run (fst c) (snd c) (snd c)
          (categorize_file env (snd c))
          (exec (for_each pre (update_quaestor_file env force dry_run)) s0)
        = (s1, inl e) ->
        exec (_update_quaestor_files env force dry_run) s0
        = exec (for_each post (update_quaestor_file env force dry_run))
            (set_result (add_failed (snd c) e) s1))
  /\ (forall pre c post s0 s1 e,
        COMMAND_FILES env = pre ++ c :: post ->
        command_file_body env dry_run c
          (exec (for_each pre (update_command_file env dry_run)) s0)
        = (s1, inl e) ->
        exec (_update_command_files env dry_run) s0
        = exec (for_each post (update_command_file env dry_run))
            (set_result (add_failed ("commands/" +:+ c) e) s1))
  /\ (let s' := exec (update env backup force dry_run) s in
      (forall c, In c files_to_process -> accounted (snd c) (result s'))
      /\ (forall c e, In c files_to_process -> shipped env (fst c) = inl e ->
                      In (snd c, e) (failed (result s')))
      /\ (fault env (Stat "CLAUDE.md") = None ->
          dry_run = true \/ fault env Save = None ->
          snd (update env backup force dry_run s) = inr (result s'))
      /\ (forall e, fault env (Stat "CLAUDE.md") = Some e ->
          snd (update env backup force dry_run s) = inl e)).
Proof.
  split; [apply returns_quaestor_files|].
  split; [apply returns_command_files|].
  split; [|split].
  - intros pre c post s0 s1 e Hsplit Hb.
    unfold _update_quaestor_files. rewrite Hsplit.
    apply (loop_goes_on
             (fun c => quaestor_file_body env force dry_run (fst c) (snd c) (snd c)
                         (categorize_file env (snd c)))
             (fun c e => append_failed (snd c) e) pre post c s0 s1 e);
      [intros; apply returns_modify | exact Hb].
  - intros pre c post s0 s1 e Hsplit Hb.
    unfold _update_command_files. rewrite Hsplit.
    apply (loop_goes_on (command_file_body env dry_run)
             (fun c e => append_failed ("commands/" +:+ c) e) pre post c s0 s1 e);
      [intros; apply returns_modify | exact Hb].
  - cbv zeta.
    assert (Hone : forall c, In c files_to_process ->
              exists s1 s2,
                s2 = exec (update_quaestor_file env force dry_run c) s1
                /\ grows s2 (exec (update env backup force dry_run) s)).
    { intros c Hin.
      destruct (candidate_split c Hin) as (pre & post & Hsplit & _ & _).
      rewrite (update_around env force dry_run backup pre post c s Hsplit).
      eexists _, _. split; [reflexivity|].
      apply (listed_grows force dry_run), listed_after. }
    repeat split.
    + intros [res p] Hin. destruct (Hone _ Hin) as (s1 & s2 & Hs2 & Hg).
      pose proof (quaestor_file_result env force dry_run res p s1) as H.
      cbv zeta in H. rewrite <- Hs2 in H. unfold accounted. cbn [snd].
      destruct H as [[e H]|[[_ H]|[H|[_ H]]]].
      * right; right; right. apply (in_map fst _ (p, e)).
        apply (grows_failed s2 _ _ Hg). rewrite H. simpl.
        apply in_or_app. right. now left.
      * right; right; left. apply (grows_skipped s2 _ _ Hg). rewrite H. simpl.
        apply in_or_app. right. now left.
      * left. apply (grows_updated s2 _ _ Hg). rewrite H. simpl.
        apply in_or_app. right. now left.
      * right; left. apply (grows_added s2 _ _ Hg). rewrite H. simpl.
        apply in_or_app. right. now left.
    + intros [res p] e Hin Hs. destruct (Hone _ Hin) as (s1 & s2 & Hs2 & Hg).
      cbn [fst snd] in *. apply (grows_failed s2 _ _ Hg). rewrite Hs2.
      rewrite (quaestor_file_unreadable env force dry_run res p s1 e Hs). simpl.
      apply in_or_app. right. now left.
    + intros Hstat Hok. unfold exec. rewrite (update_run _ _ _ _ _ Hstat).
      destruct dry_run; cbn [negb when].
      * now rewrite (run_then _ _ _ (returns_ret tt)).
      * destruct Hok as [|Hok]; [discriminate|].
        pose proof (save_then_result env (before_save env backup force false s)) as H.
        rewrite Hok in H. now rewrite H.
    + intros e Hstat. now rewrite (update_raises _ _ _ _ _ e Hstat).
Qed.

(** *** The claims on the project of [Scenario] *)

Import Scenario.



Lemma written_file_is_updated_witness :
  In claude_rules_candidate files_to_process
  /\ files edited_state !! claude_rules_md = None
  /\ In (WriteText claude_rules_md)
       (new_ops edited_state
          (exec (update (demo_env EmptyString) false false false) edited_state))
  /\ In claude_rules_md
       (updated (result (exec (update (demo_env EmptyString) false false false)
                           edited_state)))
  /\ ~ In claude_rules_md
         (added (result (exec (update (demo_env EmptyString) false false false)
                           edited_state))).
Proof.
  assert (H1 : In claude_rules_candidate files_to_process) by (left; reflexivity).
  assert (H2 : In (WriteText claude_rules_md)
                 (new_ops edited_state
                    (exec (update (demo_env EmptyString) false false false)
                       edited_state)))
    by (vm_compute; tauto).
  destruct (written_file_is_updated (demo_env EmptyString) false false
              edited_state claude_rules_candidate H1) as [Hup Hadd].
  split; [exact H1 | split; [|split; [exact H2 | split; [|exact Hadd]]]].
  - vm_compute. reflexivity.
  - apply Hup; [exact H2 | reflexivity].
Defined.

(** A run in which the second candidate cannot be read: it is reported
    as failed, the two candidates after it are still processed, and so is
    the command file. *)
Example second_candidate_unreadable :
  let r := result (exec (update (demo_env "CRITICAL_RULES.md") false false false)
                     edited_state) in
  updated r = [claude_rules_md; ".quaestor/ARCHITECTURE.md"]
  /\ skipped r = [memory_md]
  /\ added r = ["commands/task.md"]
  /\ failed r = [(".quaestor/CRITICAL_RULES.md", "No such file or directory")].
Proof. repeat split; vm_compute; reflexivity. Qed.

(** A run that is not a dry run, in a project whose directory may not be
    searched: the files are processed and the version is recorded in the
    manifest in memory, then the exception of the existence test of
    [CLAUDE.md] leaves [update]; no result is returned, no saving is
    attempted, and the manifest on disk keeps the old version. *)
Example unsearchable_project_is_not_saved :
  let run := update unsearchable_env false false false edited_state in
  snd run = inl "Permission denied"
  /\ updated (result (fst run))
     = [claude_rules_md; ".quaestor/CRITICAL_RULES.md"; ".quaestor/ARCHITECTURE.md"]
  /\ quaestor_version (manifest (fst run)) = Some "0.5.0"
  /\ quaestor_version (saved (fst run)) = Some "0.4.0"
  /\ existsb (fun o => match o with Save => true | _ => false end)
       (new_ops edited_state (fst run)) = false.
Proof. repeat split; vm_compute; reflexivity. Qed.

End UpdaterFacts.

(** ** The summary of a result *)

Module ReportFacts.
Import Py Updater Report TextFacts.

Lemma str_nat_head (n : nat) :
  exists c rest, str_nat n = String c rest /\ digit_or_minus c = true.
Proof.
  pose proof (str_int_digits (Z.of_nat n)) as H. unfold str_nat.
  assert (Hne : str_int (Z.of_nat n) <> EmptyString).
  { unfold str_int. destruct (Z.to_int (Z.of_nat n)) as [d|d]; simpl; [|discriminate].
    destruct d; discriminate. }
  destruct (str_int (Z.of_nat n)) as [|c rest]; [congruence|].
  simpl in H. apply andb_true_iff in H as [Hc _]. now exists c, rest.
Qed.

Lemma part_head {A : Type} (l : list A) (word : string) :
  l <> [] ->
  exists c rest, part l word = [String c rest] /\ digit_or_minus c = true.
Proof.
  intros Hl. destruct l as [|x l]; [congruence|]. unfold part.
  destruct (str_nat_head (List.length (x :: l))) as (c & rest & -> & Hc).
  exists c, (rest +:+ " " +:+ word). split; [reflexivity | exact Hc].
Qed.

Lemma join_head (sep : string) (c : ascii) (rest : string) (more : list string) :
  exists tail, join sep (String c rest :: more) = String c tail.
Proof. destruct more as [|y more]; simpl; eauto. Qed.

(** A summary that starts with the count of a list is not the text of
    no change. *)
Lemma counted_summary (parts : list string) (c : ascii) (rest : string) :
  digit_or_minus c = true ->
  match String c rest :: parts with
  | [] => "No changes"
  | _ => join ", " (String c rest :: parts)
  end <> "No changes".
Proof.
  intros Hc. destruct (join_head ", " c rest parts) as [tail ->].
  intros [= -> _]. discriminate Hc.
Qed.

Lemma parts_head {A B C D : Type} (u : list A) (a : list B) (k : list C) (f : list D) :
  u <> [] \/ a <> [] \/ k <> [] \/ f <> [] ->
  exists c rest more,
    part u "updated" ++ part a "added" ++ part k "skipped" ++ part f "failed"
    = String c rest :: more
    /\ digit_or_minus c = true.
Proof.
  intros H.
  destruct u as [|x u].
  - destruct a as [|y a].
    + destruct k as [|z k].
      * destruct f as [|w f]; [destruct H as [H|[H|[H|H]]]; congruence|].
        destruct (part_head (w :: f) "failed") as (c & rest & -> & Hc); [discriminate|].
        now exists c, rest, [].
      * destruct (part_head (z :: k) "skipped") as (c & rest & -> & Hc); [discriminate|].
        now exists c, rest, (part f "failed").
    + destruct (part_head (y :: a) "added") as (c & rest & -> & Hc); [discriminate|].
      now exists c, rest, (part k "skipped" ++ part f "failed").
  - destruct (part_head (x :: u) "updated") as (c & rest & -> & Hc); [discriminate|].
    now exists c, rest, (part a "added" ++ part k "skipped" ++ part f "failed").
Qed.

(** X1.  The summary of a result is [No changes] exactly when nothing is
    updated, added, skipped or failed; the list of the backups does not
    count. *)
Theorem summary_no_changes (r : UpdateResult) :
  summary r = "No changes"
  <-> updated r = [] /\ added r = [] /\ skipped r = [] /\ failed r = [].
Proof.
  split.
  - intros H.
    destruct (updated r) as [|u us] eqn:Hu; [|exfalso];
      [destruct (added r) as [|a as'] eqn:Ha; [|exfalso];
       [destruct (skipped r) as [|k ks] eqn:Hk; [|exfalso];
        [destruct (failed r) as [|f fs] eqn:Hf; [now repeat split | exfalso]|]|]|].
    all: unfold summary in H; rewrite ?Hu, ?Ha, ?Hk, ?Hf in H;
      match type of H with
      | context [part ?u "updated" ++ part ?a "added" ++ part ?k "skipped" ++ part ?f "failed"] =>
          destruct (parts_head u a k f) as (c & rest & more & Hp & Hc);
            [intuition discriminate|]; rewrite Hp in H;
            exact (counted_summary more c rest Hc H)
      end.
  - intros (Hu & Ha & Hk & Hf). unfold summary. now rewrite Hu, Ha, Hk, Hf.
Qed.

End ReportFacts.

(** ** The plan of [check_for_updates] *)

Module PlannerFacts.
Import Py Updater Planner UpdaterFacts.

(** Two states that differ by their traces only. *)
Definition frozen (s s' : State) : Prop :=
  files s' = files s /\ commands s' = commands s /\ manifest s' = manifest s
  /\ saved s' = saved s /\ result s' = result s
  /\ exists ops, trace s' = trace s ++ ops /\ Forall read_only ops.

Global Instance frozen_preorder : PreOrder frozen.
Proof.
  split.
  - intros s. repeat split. exists []. split; [now rewrite app_nil_r | constructor].
  - intros s1 s2 s3 (A1 & A2 & A3 & A4 & A5 & o1 & A6 & A7)
      (B1 & B2 & B3 & B4 & B5 & o2 & B6 & B7).
    repeat split; try congruence.
    exists (o1 ++ o2). split; [now rewrite B6, A6, app_assoc | now apply Forall_app].
Qed.

Section Plan.
Variable env : Env.
Variable type_value : FileType -> string.
Variable user_modified : ManifestEntry -> bool.

(** What one candidate adds to the plan, read off the state. *)
Definition planned (candidate : string * string) (s : State) (u : Updates) : Updates :=
  let p := snd candidate in
  let file_type := categorize_file env p in
  if negb (bool_decide (is_Some (files s !! p))) then
    plan_add (p, type_value file_type) u
  else
    match file_type with
    | SYSTEM =>
        match resources env "quaestor" (fst candidate) with
        | inr _ => plan_update (p, type_value file_type, "version changed") u
        | inl _ => u
        end
    | USER_EDITABLE =>
        match entries (manifest s) !! p with
        | Some info =>
            if user_modified info
            then plan_skip (p, type_value file_type, "user modified") u
            else u
        | None => plan_skip (p, type_value file_type, "existing file") u
        end
    | _ => u
    end.

Definition planned_command (cmd_file : string) (s : State) (u : Updates) : Updates :=
  if negb (bool_decide (is_Some (commands s !! cmd_file)))
  then plan_add ("commands/" +:+ cmd_file, type_value COMMAND) u
  else u.

Lemma frozen_log (o : op) (s : State) : read_only o -> frozen s (log o s).
Proof.
  intros Ho. repeat split. exists [o]. split; [reflexivity | now repeat constructor].
Qed.

Lemma check_quaestor_file_spec (c : string * string) (u : Updates) (s : State) :
  exists s',
    check_quaestor_file env type_value user_modified c u s = (s', inr (planned c s u))
    /\ frozen s s'.
Proof.
  destruct c as [res p]. destruct s as [fs cs mf sv r tr].
  cbv beta iota zeta delta
    [check_quaestor_file _has_new_version get_file_info exists_ read_resource
     try_except bind gets modify ret raise planned fst snd negb log
     files manifest entries].
  crunch.
  all: eexists; split; [reflexivity|];
    first [reflexivity | apply (frozen_log (ReadResource _ _)); exact I].
Qed.

Lemma check_command_file_spec (cmd_file : string) (u : Updates) (s : State) :
  check_command_file type_value cmd_file u s
  = (s, inr (planned_command cmd_file s u)).
Proof.
  unfold check_command_file, planned_command, command_exists, bind, gets, ret.
  now destruct (bool_decide (is_Some (commands s !! cmd_file))).
Qed.

Lemma planned_frozen (c : string * string) (s s' : State) (u : Updates) :
  frozen s s' -> planned c s' u = planned c s u.
Proof. intros (Hf & _ & Hm & _). unfold planned. now rewrite Hf, Hm. Qed.

(** The plan of the files of [.quaestor] and of the commands, on a
    state. *)
Definition plan_files (l : list (string * string)) (s : State) (u : Updates) : Updates :=
  fold_left (fun u c => planned c s u) l u.

Definition plan_commands (l : list string) (s : State) (u : Updates) : Updates :=
  fold_left (fun u c => planned_command c s u) l u.

Lemma plan_files_frozen (l : list (string * string)) (s s' : State) (u : Updates) :
  frozen s s' -> plan_files l s' u = plan_files l s u.
Proof.
  intros F. revert u. induction l as [|c l IH]; intros u; [reflexivity|].
  unfold plan_files. cbn [fold_left]. rewrite (planned_frozen c s s' u F). apply IH.
Qed.

Lemma check_quaestor_files_spec (l : list (string * string)) (u : Updates) (s : State) :
  exists s',
    fold_each l (check_quaestor_file env type_value user_modified) u s
    = (s', inr (plan_files l s u))
    /\ frozen s s'.
Proof.
  revert u s. induction l as [|c l IH]; intros u s; cbn [fold_each plan_files fold_left].
  - exists s. split; reflexivity.
  - destruct (check_quaestor_file_spec c u s) as (s1 & H1 & F1).
    destruct (IH (planned c s u) s1) as (s2 & H2 & F2).
    exists s2. split; [|now transitivity s1].
    unfold bind. rewrite H1, H2. now rewrite (plan_files_frozen l s s1).
Qed.

Lemma check_command_files_spec (l : list string) (u : Updates) (s : State) :
  fold_each l (check_command_file type_value) u s
  = (s, inr (plan_commands l s u)).
Proof.
  revert u. induction l as [|c l IH]; intros u; cbn [fold_each]; [reflexivity|].
  unfold bind. rewrite check_command_file_spec. apply IH.
Qed.

(** The plan, as a function of the state. *)
Definition the_plan (s : State) : Updates :=
  let current := quaestor_version (manifest s) in
  plan_commands (COMMAND_FILES env) s
    (plan_files files_to_check s
       (MkUpdates (negb (bool_decide (current = Some (version env))))
          current (version env) [] [] [])).

Lemma check_for_updates_spec (show_diff : bool) (s : State) :
  exists s',
    check_for_updates env type_value user_modified show_diff s = (s', inr (the_plan s))
    /\ frozen s s'.
Proof.
  unfold check_for_updates, get_quaestor_version, _check_quaestor_files,
    _check_command_files, the_plan.
  cbn [bind gets ret current_version new_version to_update to_add to_skip].
  set (u0 := MkUpdates (negb (bool_decide (quaestor_version (manifest s)
                                           = Some (version env))))
               (quaestor_version (manifest s)) (version env) [] [] []).
  match goal with
  | |- context [fold_each files_to_check _ ?u] =>
      replace u with u0 by (subst u0; now destruct (bool_decide _))
  end.
  destruct (check_quaestor_files_spec files_to_check u0 s) as (s1 & H1 & F1).
  exists s1. split; [|exact F1].
  unfold bind. rewrite H1. rewrite check_command_files_spec. unfold ret.
  f_equal. f_equal. unfold plan_commands.
  destruct F1 as (_ & Hc & _). clear -Hc.
  generalize (plan_files files_to_check s u0).
  induction (COMMAND_FILES env) as [|c l IH]; intros u; [reflexivity|].
  cbn [fold_left]. unfold planned_command at 2 4. rewrite Hc. apply IH.
Qed.





















End Plan.

(** X2.  Planning changes nothing: the state [check_for_updates]
    leaves has the files of the project, the command files, the manifest
    in memory and on disk, and the result of the last run as they were;
    all that it attempts is reading shipped resources. *)
Theorem plan_reads_only (env : Env) (type_value : FileType -> string)
    (user_modified : ManifestEntry -> bool) (show_diff : bool) (s : State) :
  let s' := exec (check_for_updates env type_value user_modified show_diff) s in
  files s' = files s /\ commands s' = commands s
  /\ manifest s' = manifest s /\ saved s' = saved s /\ result s' = result s
  /\ exists ops, trace s' = trace s ++ ops /\ Forall read_only ops.
Proof.
  destruct (check_for_updates_spec env type_value user_modified show_diff s)
    as (s' & H & F).
  cbv zeta. unfold exec. rewrite H. exact F.
Qed.





End PlannerFacts.

(** ** More on a run of [update] *)

Module RunFacts.
Import Py Updater UpdaterFacts.

(** Two states with the same view [proj]. *)
Section Same.
Context {X : Type} (proj : State -> X).
Variable env : Env.

Definition same (s s' : State) : Prop := proj s' = proj s.

Global Instance same_preorder : PreOrder same.
Proof. split; unfold same; [intros s | intros s1 s2 s3]; congruence. Qed.

Lemma same_attempt (o : op) :
  (forall s, proj (log o s) = proj s) -> keeps same (attempt env o).
Proof. intros H s. unfold exec, attempt. destruct (fault env o); apply H. Qed.

Lemma same_modify (f : State -> State) :
  (forall s, proj (f s) = proj s) -> keeps same (modify f).
Proof. intros H s. apply H. Qed.

End Same.

Ltac same_prim :=
  first [ apply same_attempt; intros ?; reflexivity
        | apply same_modify; intros ?; reflexivity ].

(** The statements of a run, down to the operations. *)
Ltac to_operations :=
  unfold _update_quaestor_files, update_quaestor_file, quaestor_file_body,
    read_new_content, _should_update_file, _update_command_files,
    update_command_file, command_file_body, _update_claude_md_include,
    claude_md_body, _create_backup, copy, exists_, command_exists,
    is_file_modified, mkdir, mkdir_commands, read_resource, read_text,
    write_text, write_command, track_file, save, set_quaestor_version,
    append_updated, append_skipped, append_added, append_failed.

Section Backups.
Variable env : Env.

Lemma backed_up_kept (backup force dry_run : bool) (s : State) :
  same (fun s => backed_up (result s))
    (exec (prologue env backup dry_run) s) (before_save env backup force dry_run s).
Proof.
  assert (H1 : keeps (same (fun s => backed_up (result s)))
                 (_update_quaestor_files env force dry_run))
    by (to_operations; keep_with same_prim).
  assert (H2 : keeps (same (fun s => backed_up (result s)))
                 (_update_command_files env dry_run))
    by (to_operations; keep_with same_prim).
  assert (H3 : keeps (same (fun s => backed_up (result s)))
                 (_update_claude_md_include env dry_run))
    by (to_operations; keep_with same_prim).
  unfold before_save.
  etransitivity; [apply H1|]. etransitivity; [apply H2 | apply H3].
Qed.

End Backups.

(** X7.  The result of a run never lists a backup: [backed_up] is empty
    after every run of [update], also one that made a backup. *)
Theorem backup_is_never_reported (env : Env) (backup force dry_run : bool) (s : State) :
  backed_up (result (exec (update env backup force dry_run) s)) = [].
Proof.
  rewrite result_update. rewrite (backed_up_kept env backup force dry_run s).
  now rewrite result_prologue.
Qed.

(** *** Files the tool does not manage *)

Section Unmanaged.
Variable env : Env.
Variables backup force dry_run : bool.

Lemma spares_update (p : string) (s : State) :
  startswith backup_root p = false -> p <> "CLAUDE.md" ->
  Forall (fun c => snd c <> p) files_to_process ->
  changes (spares p) s (exec (update env backup force dry_run) s).
Proof.
  intros Hb Hc Hl. rewrite exec_update. unfold before_save.
  etransitivity; [now apply (spares_prologue env dry_run p backup)|].
  etransitivity; [now apply (spares_others env force dry_run p files_to_process)|].
  etransitivity; [apply (spares_commands env dry_run p)|].
  etransitivity; [now apply (spares_claude_md env dry_run p)|].
  apply spares_save.
Qed.

(** The entry the manifest has for [p]. *)
Definition entry_of (p : string) (s : State) : option ManifestEntry :=
  entries (manifest s) !! p.

Ltac entry_prim :=
  first [ apply same_attempt; intros ?; reflexivity
        | apply same_modify; intros ?; first [reflexivity | now apply lookup_insert_ne] ].

Lemma entry_quaestor_file (p : string) (c : string * string) :
  snd c <> p -> keeps (same (entry_of p)) (update_quaestor_file env force dry_run c).
Proof.
  intros Hc. destruct c as [res q]. cbn [snd] in Hc.
  to_operations. cbn [fst snd]. keep_with entry_prim.
Qed.

Lemma entry_quaestor_files (p : string) (l : list (string * string)) :
  Forall (fun c => snd c <> p) l ->
  keeps (same (entry_of p)) (for_each l (update_quaestor_file env force dry_run)).
Proof.
  intros H. apply keeps_for; [apply _|]. intros c Hc.
  rewrite Forall_forall in H. apply entry_quaestor_file, H. now apply list_elem_of_In.
Qed.

Lemma entry_command_files (p : string) :
  keeps (same (entry_of p)) (_update_command_files env dry_run).
Proof. to_operations. keep_with entry_prim. Qed.

Lemma entry_claude_md (p : string) :
  keeps (same (entry_of p)) (_update_claude_md_include env dry_run).
Proof. to_operations. keep_with entry_prim. Qed.

Lemma entry_save (p : string) (b : bool) : keeps (same (entry_of p)) (when b (save env)).
Proof. to_operations. keep_with entry_prim. Qed.

Lemma entry_prologue (p : string) :
  keeps (same (entry_of p)) (prologue env backup dry_run).
Proof. unfold prologue. to_operations. keep_with entry_prim. Qed.

Lemma entry_update (p : string) (s : State) :
  Forall (fun c => snd c <> p) files_to_process ->
  entry_of p (exec (update env backup force dry_run) s) = entry_of p s.
Proof.
  intros Hl. rewrite exec_update. unfold before_save.
  rewrite (entry_save p _ _), (entry_claude_md p _), (entry_command_files p _).
  unfold _update_quaestor_files. rewrite (entry_quaestor_files p _ Hl _).
  apply entry_prologue.
Qed.

End Unmanaged.

(** *** Command files *)

(** The operations that leave the command file [cmd] alone. *)
Definition spares_command (cmd : string) (o : op) : Prop := o <> WriteCommand cmd.

Ltac not_a_command :=
  let o := fresh "o" in
  let Ho := fresh "Ho" in
  intros o Ho; unfold spares_command; destruct o; try discriminate;
  simpl in Ho; tauto.

Lemma first_split (x : string) (l : list string) :
  In x l -> exists pre post, l = pre ++ x :: post /\ ~ In x pre.
Proof.
  induction l as [|y l IH]; [intros []|]. intros Hin.
  destruct (String.eqb_spec y x) as [->|Hne].
  - exists [], l. split; [reflexivity | intros []].
  - destruct Hin as [Heq | Hin]; [contradiction|].
    destruct (IH Hin) as (pre & post & -> & Hpre).
    exists (y :: pre), post. split; [reflexivity|].
    intros [Heq | H]; [contradiction | now apply Hpre].
Qed.

Section Commands.
Variable env : Env.

Lemma command_spared (dry_run : bool) (cmd cmd' : string) :
  cmd' <> cmd ->
  keeps (changes (spares_command cmd)) (update_command_file env dry_run cmd').
Proof.
  intros Hne.
  unfold update_command_file, command_file_body, command_exists, mkdir_commands.
  destruct dry_run; cbn [when negb]; keep_with changes_prim;
    unfold spares_command; congruence.
Qed.

Lemma command_present (dry_run : bool) (cmd : string) (s : State) :
  is_Some (commands s !! cmd) -> exec (update_command_file env dry_run cmd) s = s.
Proof.
  intros H.
  assert (Hb : bool_decide (is_Some (commands s !! cmd)) = true)
    by now apply bool_decide_eq_true.
  unfold exec, update_command_file, command_file_body, command_exists, try_except,
    bind, gets. rewrite Hb. reflexivity.
Qed.

Lemma spared_is_kept (cmd : string) (s s' : State) :
  changes (spares_command cmd) s s' ->
  commands s' !! cmd = commands s !! cmd /\ ~ In (WriteCommand cmd) (new_ops s s').
Proof.
  intros [ops Ht Ho _ Hc _ _ _]. split; [now apply Hc|].
  rewrite (new_ops_app s s' ops Ht). intros Hin.
  rewrite Forall_forall in Ho. apply (Ho (WriteCommand cmd)); [|reflexivity].
  now apply list_elem_of_In.
Qed.

(** A loop over command files writes none that exists and none that is
    not in the list. *)
Lemma commands_spared (dry_run : bool) (cmd : string) (l : list string) (s : State) :
  is_Some (commands s !! cmd) \/ ~ In cmd l ->
  changes (spares_command cmd) s (exec (for_each l (update_command_file env dry_run)) s).
Proof.
  revert s. induction l as [|cmd' l IH]; intros s H; [reflexivity|].
  cbn [for_each]. rewrite exec_then by apply returns_command_file.
  assert (H1 : changes (spares_command cmd) s
                 (exec (update_command_file env dry_run cmd') s)).
  { destruct (String.eqb_spec cmd' cmd) as [->|Hne].
    - destruct H as [H | H]; [|exfalso; apply H; now left].
      rewrite (command_present dry_run cmd s H). reflexivity.
    - now apply command_spared. }
  etransitivity; [exact H1|]. apply IH.
  destruct H as [H | H]; [left | right; intros Hin; apply H; now right].
  destruct (spared_is_kept cmd _ _ H1) as [-> _]. exact H.
Qed.

Lemma files_spare_command (force dry_run : bool) (cmd : string) :
  keeps (changes (spares_command cmd)) (_update_quaestor_files env force dry_run).
Proof.
  apply keeps_for; [apply _|]. intros c _.
  eapply keeps_changes_weaken; [|apply changes_quaestor_file]. not_a_command.
Qed.

Lemma claude_md_spares_command (dry_run : bool) (cmd : string) :
  keeps (changes (spares_command cmd)) (_update_claude_md_include env dry_run).
Proof. eapply keeps_changes_weaken; [|apply changes_claude_md]. not_a_command. Qed.

Lemma save_spares_command (b : bool) (cmd : string) :
  keeps (changes (spares_command cmd)) (when b (save env)).
Proof.
  apply keeps_when; [apply _|]. apply changes_save. unfold spares_command. discriminate.
Qed.

Lemma prologue_spares_command (backup dry_run : bool) (cmd : string) :
  keeps (changes (spares_command cmd)) (prologue env backup dry_run).
Proof.
  unfold prologue.
  apply keeps_bind; [apply _ | apply changes_set_result | intros _].
  apply keeps_bind; [apply _ | | intros _].
  - eapply keeps_changes_weaken; [|apply changes_backup]. not_a_command.
  - apply keeps_when; [apply _|]. apply changes_set_quaestor_version.
    unfold spares_command. discriminate.
Qed.

(** The state before the loop over the command files, and the run after
    one turn of it. *)
Definition before_commands (backup force dry_run : bool) (s : State) : State :=
  exec (_update_quaestor_files env force dry_run) (exec (prologue env backup dry_run) s).

Definition after_command (dry_run : bool) (post : list string) (s : State) : State :=
  exec (when (saves env dry_run) (save env))
    (exec (_update_claude_md_include env dry_run)
       (exec (for_each post (update_command_file env dry_run)) s)).

Lemma before_commands_spares (backup force dry_run : bool) (cmd : string) (s : State) :
  changes (spares_command cmd) s (before_commands backup force dry_run s).
Proof.
  unfold before_commands.
  etransitivity; [apply prologue_spares_command | apply files_spare_command].
Qed.

Lemma after_command_spares (dry_run : bool) (cmd : string) (post : list string)
    (s : State) :
  is_Some (commands s !! cmd) \/ ~ In cmd post ->
  changes (spares_command cmd) s (after_command dry_run post s).
Proof.
  intros H. unfold after_command.
  transitivity (exec (for_each post (update_command_file env dry_run)) s);
    [now apply commands_spared|].
  etransitivity; [apply claude_md_spares_command | apply save_spares_command].
Qed.

Lemma after_command_grows (dry_run : bool) (post : list string) (s : State) :
  grows s (after_command dry_run post s).
Proof.
  assert (H1 : keeps grows (for_each post (update_command_file env dry_run))).
  { apply (keeps_for grows). intros c _.
    eapply keeps_impl; [|apply reports_command_file].
    intros s1 s2. apply reports_weaken; auto. }
  assert (H2 : keeps grows (_update_claude_md_include env dry_run)).
  { eapply keeps_impl; [|apply reports_claude_md].
    intros s1 s2. apply reports_weaken; auto. }
  assert (H3 : keeps grows (when (saves env dry_run) (save env))).
  { apply reports_silent. apply keeps_when; [apply _ | apply silent_save]. }
  unfold after_command.
  transitivity (exec (for_each post (update_command_file env dry_run)) s);
    [apply H1|].
  etransitivity; [apply H2 | apply H3].
Qed.

Lemma update_commands (backup force dry_run : bool) (s : State) :
  exec (update env backup force dry_run) s
  = after_command dry_run (COMMAND_FILES env) (before_commands backup force dry_run s).
Proof. rewrite exec_update. reflexivity. Qed.

Lemma update_around_command (backup force dry_run : bool) (pre post : list string)
    (cmd : string) (s : State) :
  COMMAND_FILES env = pre ++ cmd :: post ->
  exec (update env backup force dry_run) s
  = after_command dry_run post
      (exec (update_command_file env dry_run cmd)
         (exec (for_each pre (update_command_file env dry_run))
            (before_commands backup force dry_run s))).
Proof.
  intros Hsplit. rewrite update_commands. unfold after_command. do 2 f_equal.
  rewrite Hsplit. unfold exec at 1.
  rewrite exec_for_app by apply returns_command_file.
  cbn [for_each]. fold (exec (update_command_file env dry_run cmd ;;
                              for_each post (update_command_file env dry_run))
                          (exec (for_each pre (update_command_file env dry_run))
                             (before_commands backup force dry_run s))).
  now rewrite exec_then by apply returns_command_file.
Qed.

(** One turn on a command file that does not exist. *)
Lemma command_installed (cmd text : string) (s : State) :
  commands s !! cmd = None ->
  resources env "quaestor.commands" cmd = inr text ->
  fault env MkdirCommands = None -> fault env (WriteCommand cmd) = None ->
  let s' := exec (update_command_file env false cmd) s in
  commands s' !! cmd = Some text
  /\ result s' = add_added ("commands/" +:+ cmd) (result s).
Proof.
  intros Hc Hr Hm Hw.
  assert (Hb : bool_decide (is_Some (commands s !! cmd)) = false).
  { apply bool_decide_eq_false. rewrite Hc. intros [x Hx]. discriminate. }
  cbv beta iota zeta delta
    [exec update_command_file command_file_body command_exists try_except bind
     when read_resource mkdir_commands write_command attempt gets modify ret raise
     append_added append_failed negb log fst snd].
  rewrite Hb, Hr, Hm. cbn [commands]. rewrite Hw.
  cbn [fst result commands set_commands set_result]. split; [apply lookup_insert_eq | reflexivity].
Qed.



(** The state at the first turn for a command file that does not
    exist. *)
Lemma command_still_missing (backup force dry_run : bool) (pre : list string)
    (cmd : string) (s : State) :
  commands s !! cmd = None -> ~ In cmd pre ->
  commands (exec (for_each pre (update_command_file env dry_run))
              (before_commands backup force dry_run s)) !! cmd = None.
Proof.
  intros Hc Hpre.
  destruct (spared_is_kept cmd _ _ (before_commands_spares backup force dry_run cmd s))
    as [H0 _].
  destruct (spared_is_kept cmd _ _
              (commands_spared dry_run cmd pre
                 (before_commands backup force dry_run s) (or_intror Hpre)))
    as [H1 _].
  now rewrite H1, H0.
Qed.

End Commands.

(** X10.  A command file of [COMMAND_FILES] that does not exist is
    installed by a run that is not a dry run: when its resource can be
    read from the package [quaestor.commands], and neither making the
    directory of the commands nor writing the file fails, the file holds
    the shipped text after the run and [commands/NAME] is reported as
    added. *)
Theorem missing_command_is_installed
    (env : Env) (backup force : bool) (s : State) (cmd text : string) :
  In cmd (COMMAND_FILES env) ->
  commands s !! cmd = None ->
  resources env "quaestor.commands" cmd = inr text ->
  fault env MkdirCommands = None ->
  fault env (WriteCommand cmd) = None ->
  let s' := exec (update env backup force false) s in
  commands s' !! cmd = Some text
  /\ In ("commands/" +:+ cmd) (added (result s')).
Proof.
  intros Hin Hc Hr Hm Hw s'.
  destruct (first_split cmd _ Hin) as (pre & post & Hsplit & Hpre).
  subst s'. rewrite (update_around_command env backup force false pre post cmd s Hsplit).
  pose proof (command_still_missing env backup force false pre cmd s Hc Hpre) as H1.
  set (s1 := exec (for_each pre (update_command_file env false))
               (before_commands env backup force false s)) in *.
  destruct (command_installed env cmd text s1 H1 Hr Hm Hw) as [H2 Hres].
  set (s2 := exec (update_command_file env false cmd) s1) in *.
  assert (Hs : is_Some (commands s2 !! cmd)) by (rewrite H2; eauto).
  destruct (spared_is_kept cmd _ _
              (after_command_spares env false cmd post s2 (or_introl Hs))) as [H3 _].
  split; [now rewrite H3|].
  apply (grows_added s2 _ _ (after_command_grows env false post s2)).
  rewrite Hres. cbn [added add_added]. apply in_or_app. right. now left.
Qed.

Lemma missing_command_is_installed_witness :
  let s' := exec (update (Scenario.demo_env EmptyString) false false false)
              Scenario.edited_state in
  commands s' !! "task.md" = Some "shipped task.md"
  /\ In "commands/task.md" (added (result s')).
Proof.
  apply (missing_command_is_installed (Scenario.demo_env EmptyString) false false
           Scenario.edited_state "task.md" "shipped task.md").
  - left. reflexivity.
  - vm_compute. reflexivity.
  - reflexivity.
  - reflexivity.
  - reflexivity.
Defined.




(** *** A candidate that is written *)

(** The entry [track_file] records for a candidate whose shipped text is
    [text]. *)
Definition fresh_entry (env : Env) (p text : string) : ManifestEntry :=
  MkEntry (categorize_file env p)
    (or_default (extract_version_from_content env text) "1.0")
    (fingerprint env text) (now env).

Section Written.
Variable env : Env.

Lemma quaestor_file_refreshed (force : bool) (resource_name p : string) (s : State)
    (text : string) :
  force = true \/ files s !! p = None \/ categorize_file env p = SYSTEM ->
  shipped env resource_name = inr text ->
  fault env (Mkdir (parent p)) = None -> fault env (WriteText p) = None ->
  let s' := exec (update_quaestor_file env force false (resource_name, p)) s in
  files s' !! p = Some text
  /\ result s' = add_updated p (result s)
  /\ entries (manifest s') !! p = Some (fresh_entry env p text).
Proof.
  intros Hwhy Hs Hm Hw s'. subst s'. unfold shipped in Hs. unfold fresh_entry.
  assert (Hb : force = false -> categorize_file env p <> SYSTEM ->
               bool_decide (is_Some (files s !! p)) = false).
  { intros -> Hc. destruct Hwhy as [H | [H | H]]; [discriminate | | contradiction].
    apply bool_decide_eq_false. rewrite H. intros [x Hx]. discriminate. }
  destruct s as [fs cs mf sv r tr]. cbn [files] in *.
  destruct force;
    [|destruct (bool_decide (is_Some (fs !! p))) eqn:Hex;
      [destruct (categorize_file env p) eqn:Hc;
       try (specialize (Hb eq_refl ltac:(discriminate)); discriminate)|]];
    destruct (startswith "templates/" resource_name) eqn:Hst; run_file;
    try absurd_lookup.
  all: repeat split; cbn [entries]; rewrite ?lookup_insert_eq; reflexivity.
Qed.

Lemma entry_after (force dry_run : bool) (p : string) (post : list (string * string))
    (s : State) :
  Forall (fun c => snd c <> p) post ->
  entry_of p (after_file env force dry_run post s) = entry_of p s.
Proof.
  intros Hpost. unfold after_file.
  rewrite (entry_save env p _ _), (entry_claude_md env dry_run p _),
    (entry_command_files env dry_run p _).
  apply (entry_quaestor_files env force dry_run p post Hpost).
Qed.

End Written.

(** X12.  In a run that is not a dry run, a candidate of [.quaestor]
    that is forced, or does not exist, or is of type [SYSTEM], is
    written and tracked: when its shipped resource can be read and
    neither making its directory nor writing it fails, the file holds the
    shipped text after the run, its path is reported as updated, and the
    manifest has for it the entry of its type, of the version found in
    the text ([1.0] when none is found, or an empty one), of the baseline
    of the text and of the time of the run. *)
Theorem candidate_is_written_and_tracked
    (env : Env) (backup force : bool) (s : State) (c : string * string)
    (text : string) :
  In c files_to_process ->
  force = true \/ files s !! snd c = None \/ categorize_file env (snd c) = SYSTEM ->
  shipped env (fst c) = inr text ->
  fault env (Mkdir (parent (snd c))) = None ->
  fault env (WriteText (snd c)) = None ->
  let s' := exec (update env backup force false) s in
  files s' !! snd c = Some text
  /\ In (snd c) (updated (result s'))
  /\ entries (manifest s') !! snd c = Some (fresh_entry env (snd c) text).
Proof.
  intros Hin Hwhy Hs Hm Hw s'.
  destruct (candidate_split c Hin) as (pre & post & Hsplit & Hpre & Hpost).
  destruct (candidate_path c Hin) as (Hbk & Hcl & _).
  destruct c as [res p]. cbn [fst snd] in *. subst s'.
  rewrite (update_around env force false backup pre post (res, p) s Hsplit).
  destruct (spares_file p s _ (spares_before env force false p backup pre s Hbk Hpre))
    as [Hf1 _].
  set (s1 := before_file env force false backup pre s) in *.
  assert (Hwhy1 : force = true \/ files s1 !! p = None
                  \/ categorize_file env p = SYSTEM)
    by (rewrite Hf1; exact Hwhy).
  destruct (quaestor_file_refreshed env force res p s1 text Hwhy1 Hs Hm Hw)
    as (Hf2 & Hr2 & He2).
  set (s2 := exec (update_quaestor_file env force false (res, p)) s1) in *.
  destruct (spares_file p s2 _ (spares_after env force false p post s2 Hcl Hpost))
    as [Hf3 _].
  split; [now rewrite Hf3|]. split.
  - apply (grows_updated s2 _ p
             (listed_grows _ _ _ _ (listed_after env force false post s2))).
    rewrite Hr2. cbn [updated add_updated]. apply in_or_app. right. now left.
  - pose proof (entry_after env force false p post s2 Hpost) as He3.
    unfold entry_of in He3. now rewrite He3.
Qed.

Lemma candidate_is_written_and_tracked_witness :
  let env := Scenario.demo_env EmptyString in
  let s' := exec (update env false false false) Scenario.edited_state in
  files s' !! Scenario.claude_rules_md = Some "shipped QUAESTOR_CLAUDE.md"
  /\ In Scenario.claude_rules_md (updated (result s'))
  /\ entries (manifest s') !! Scenario.claude_rules_md
     = Some (fresh_entry env Scenario.claude_rules_md "shipped QUAESTOR_CLAUDE.md").
Proof.
  apply (candidate_is_written_and_tracked (Scenario.demo_env EmptyString) false false
           Scenario.edited_state Scenario.claude_rules_candidate
           "shipped QUAESTOR_CLAUDE.md").
  - left. reflexivity.
  - right. left. vm_compute. reflexivity.
  - reflexivity.
  - reflexivity.
  - reflexivity.
Defined.


(** *** How often a path is reported *)

(** The number of times the four lists of a result hold the path [p]. *)
Definition reported (p : string) (r : UpdateResult) : nat :=
  count_occ String.string_dec
    (updated r ++ added r ++ skipped r ++ List.map fst (failed r)) p.

Lemma reported_add (p q : string) (r : UpdateResult) :
  let n := reported p r + (if String.string_dec q p then 1 else 0) in
  reported p (add_updated q r) = n /\ reported p (add_added q r) = n
  /\ reported p (add_skipped q r) = n
  /\ forall e, reported p (add_failed q e r) = n.
Proof.
  unfold reported. cbn [updated added skipped failed add_updated add_added
                          add_skipped add_failed].
  repeat split; intros; rewrite ?map_app; cbn [List.map fst];
    rewrite !count_occ_app; cbn [count_occ]; destruct (String.string_dec q p); lia.
Qed.

Lemma reported_other (p q : string) (r : UpdateResult) :
  q <> p ->
  reported p (add_updated q r) = reported p r
  /\ reported p (add_added q r) = reported p r
  /\ reported p (add_skipped q r) = reported p r
  /\ forall e, reported p (add_failed q e r) = reported p r.
Proof.
  intros Hne. pose proof (reported_add p q r) as H. cbv zeta in H.
  destruct (String.string_dec q p) as [Heq | _]; [contradiction|].
  rewrite Nat.add_0_r in H. exact H.
Qed.

Lemma reported_same (p : string) (r : UpdateResult) :
  reported p (add_updated p r) = S (reported p r)
  /\ reported p (add_added p r) = S (reported p r)
  /\ reported p (add_skipped p r) = S (reported p r)
  /\ forall e, reported p (add_failed p e r) = S (reported p r).
Proof.
  pose proof (reported_add p p r) as H. cbv zeta in H.
  destruct (String.string_dec p p) as [_ | Hne]; [|contradiction].
  rewrite Nat.add_1_r in H. exact H.
Qed.

Section Once.
Variable env : Env.
Variables force dry_run : bool.
Variable p : string.
Hypothesis not_a_command : forall cmd, "commands/" +:+ cmd <> p.
Hypothesis not_claude_md : "CLAUDE.md" <> p.
Hypothesis not_the_section : "CLAUDE.md (config section)" <> p.

Definition count_of (s : State) : nat := reported p (result s).

Ltac count_prim :=
  first [ apply same_attempt; intros ?; reflexivity
        | apply same_modify; intros ?;
          first [ reflexivity
                | unfold count_of; cbn [result set_result];
                  apply reported_other; auto ] ].

Lemma count_quaestor_file (c : string * string) :
  snd c <> p -> keeps (same count_of) (update_quaestor_file env force dry_run c).
Proof.
  intros Hne s. destruct c as [res q]. cbn [snd] in Hne.
  pose proof (quaestor_file_result env force dry_run res q s) as H. cbv zeta in H.
  destruct (reported_other p q (result s) Hne) as (Hu & Ha & Hk & Hf).
  unfold same, count_of.
  destruct H as [[e ->]|[[_ ->]|[->|[_ ->]]]]; auto.
Qed.

Lemma count_quaestor_files (l : list (string * string)) :
  Forall (fun c => snd c <> p) l ->
  keeps (same count_of) (for_each l (update_quaestor_file env force dry_run)).
Proof.
  intros H. apply keeps_for; [apply _|]. intros c Hc.
  rewrite Forall_forall in H. apply count_quaestor_file, H. now apply list_elem_of_In.
Qed.

Lemma count_command_files :
  keeps (same count_of) (_update_command_files env dry_run).
Proof. to_operations. keep_with count_prim. Qed.

Lemma count_claude_md :
  keeps (same count_of) (_update_claude_md_include env dry_run).
Proof. to_operations. keep_with count_prim. Qed.

Lemma count_save (b : bool) : keeps (same count_of) (when b (save env)).
Proof. to_operations. keep_with count_prim. Qed.

Lemma count_after (post : list (string * string)) (s : State) :
  Forall (fun c => snd c <> p) post ->
  count_of (after_file env force dry_run post s) = count_of s.
Proof.
  intros Hpost. unfold after_file.
  rewrite (count_save _ _), (count_claude_md _), (count_command_files _).
  apply (count_quaestor_files post Hpost).
Qed.

Lemma count_before (backup : bool) (pre : list (string * string)) (s : State) :
  Forall (fun c => snd c <> p) pre ->
  count_of (before_file env force dry_run backup pre s) = 0.
Proof.
  intros Hpre. unfold before_file. rewrite (count_quaestor_files pre Hpre _).
  unfold count_of. now rewrite result_prologue.
Qed.

End Once.

Lemma candidate_reports (c : string * string) :
  In c files_to_process ->
  (forall cmd, "commands/" +:+ cmd <> snd c)
  /\ "CLAUDE.md" <> snd c /\ "CLAUDE.md (config section)" <> snd c.
Proof.
  unfold files_to_process.
  intros [<-|[<-|[<-|[<-|[]]]]]; repeat split; try discriminate; intros cmd; discriminate.
Qed.

Lemma candidate_count
    (env : Env) (backup force dry_run : bool) (s : State) (c : string * string) :
  In c files_to_process ->
  reported (snd c) (result (exec (update env backup force dry_run) s)) = 1.
Proof.
  intros Hin.
  destruct (candidate_split c Hin) as (pre & post & Hsplit & Hpre & Hpost).
  destruct (candidate_reports c Hin) as (H1 & H2 & H3).
  destruct c as [res p]. cbn [snd] in *.
  rewrite (update_around env force dry_run backup pre post (res, p) s Hsplit).
  pose proof (count_after env force dry_run p H1 H2 H3 post
                (exec (update_quaestor_file env force dry_run (res, p))
                   (before_file env force dry_run backup pre s)) Hpost) as Ha.
  unfold count_of in Ha. rewrite Ha.
  pose proof (count_before env force dry_run p backup pre s Hpre) as Hb.
  unfold count_of in Hb.
  pose proof (quaestor_file_result env force dry_run res p
                (before_file env force dry_run backup pre s)) as H. cbv zeta in H.
  destruct (reported_same p (result (before_file env force dry_run backup pre s)))
    as (Hu & Had & Hk & Hf).
  destruct H as [[e ->]|[[_ ->]|[->|[_ ->]]]]; rewrite ?Hu, ?Had, ?Hk, ?Hf, Hb;
    reflexivity.
Qed.

(** X13.  In the result of a run of [update], whatever the flags, the
    faults and the state, every candidate of [.quaestor] is reported
    once and only once: its path is in one of the lists [updated],
    [added], [skipped] and [failed], at one place. *)
Theorem candidate_is_reported_once
    (env : Env) (backup force dry_run : bool) (s : State) (c : string * string) :
  In c files_to_process ->
  reported (snd c) (result (exec (update env backup force dry_run) s)) = 1.
Proof. apply candidate_count. Qed.

Lemma candidate_is_reported_once_witness :
  reported Scenario.memory_md
    (result (exec (update (Scenario.demo_env EmptyString) true false false)
               Scenario.edited_state)) = 1.
Proof.
  apply (candidate_is_reported_once (Scenario.demo_env EmptyString) true false false
           Scenario.edited_state Scenario.memory_candidate).
  right. right. right. left. reflexivity.
Defined.

End RunFacts.

(** ** The backup *)

Module BackupFacts.
Import Py Updater UpdaterFacts.

(** X14.  Making a backup never raises, whatever fails on the way, and
    never touches what it saves: a file that does not lie below the
    directory of the backups has after it the text it had before, and the
    command files, the manifest in memory and on disk and the result are
    as they were. *)
Theorem backup_leaves_the_originals (env : Env) (s : State) :
  exists backup_dir,
    snd (_create_backup env s) = inr backup_dir
    /\ let s' := exec (_create_backup env) s in
       (forall p, startswith backup_root p = false -> files s' !! p = files s !! p)
       /\ commands s' = commands s /\ manifest s' = manifest s
       /\ saved s' = saved s /\ result s' = result s.
Proof.
  destruct (returns_create_backup env s) as [d Hd]. exists d. split; [exact Hd|].
  cbv zeta. destruct (changes_create_backup env s) as [ops Ht Ho Hf Hc Hs _ Hm].
  assert (Hall : forall Q : op -> Prop,
             (forall o, backup_ops o -> Q o) -> Forall Q ops).
  { intros Q HQ. eapply Forall_impl; [exact Ho | exact HQ]. }
  repeat split.
  - intros p Hp. apply Hf, Hall. intros o Hb. destruct o; simpl in *; try tauto.
    intros ->. congruence.
  - apply map_eq. intros c. apply Hc, Hall. intros o Hb.
    destruct o; simpl in Hb; try tauto; discriminate.
  - apply Hm, Hall. intros o Hb. destruct o; simpl in *; tauto.
  - apply Hs, Hall. intros o Hb. destruct o; simpl in Hb; try tauto; discriminate.
  - assert (Hsil : silent (_create_backup env)).
    { unfold silent, _create_backup, mkdir, exists_.
      keep_with ltac:(first [apply silent_copy | apply silent_attempt]). }
    apply Hsil.
Qed.


(** *** What a backup holds *)



Lemma app_inv_head (a x y : string) : a +:+ x = a +:+ y -> x = y.
Proof.
  induction a as [|c a IH]; [now rewrite !TextFacts.app_nil_l|].
  rewrite !TextFacts.app_cons. intros H. injection H as H. now apply IH.
Qed.

Section Copies.
Variable env : Env.
Hypothesis copies : forall src dst, fault env (Copy src dst) = None.

Definition backup_dir : string := path_join (path_join quaestor_dir ".backup") (now env).



(** A file of [.quaestor] that a backup saves. *)
Definition item (k : string) : Prop :=
  startswith (quaestor_dir +:+ "/") k = true
  /\ startswith ".backup/" (drop (String.length quaestor_dir + 1) k) = false.







End Copies.




End BackupFacts.

(** ** The section of [CLAUDE.md] *)

Module ClaudeMdFacts.
Import Py Updater UpdaterFacts.

Definition claude_md : string := "CLAUDE.md".
Definition config_section : string := "CLAUDE.md (config section)".

(** [CLAUDE.md] does not exist, or holds no start marker. *)
Definition unmarked (env : Env) (s : State) : Prop :=
  match files s !! claude_md with
  | None => True
  | Some text => contains (QUAESTOR_CONFIG_START env) text = false
  end.

(** The paths a run reports as updated, the section apart. *)
Definition plain : State -> State -> Prop :=
  reports (fun q => q <> config_section) (fun _ => True) (fun _ => True).

Section Unmarked.
Variable env : Env.
Variables force dry_run : bool.

(** The turn of [CLAUDE.md] in a state where it is unmarked: it reads,
    at most, and reports nothing but a failure. *)
Lemma claude_md_unmarked (s : State) :
  unmarked env s ->
  let s' := exec (_update_claude_md_include env dry_run) s in
  files s' = files s
  /\ (exists ops, trace s' = trace s ++ ops /\ Forall read_only ops)
  /\ updated (result s') = updated (result s).
Proof.
  unfold unmarked, claude_md. intros H.
  cbv beta iota zeta delta
    [exec _update_claude_md_include claude_md_body stat exists_ read_text try_except
     bind when attempt gets modify ret raise append_failed negb fst snd].
  destruct (fault env (Stat "CLAUDE.md")) as [e0|].
  { cbn [fst files trace result log]. split; [reflexivity|]. split; [|reflexivity].
    exists [Stat "CLAUDE.md"]. split; [reflexivity|]. now repeat constructor. }
  cbn [files log].
  destruct (files s !! "CLAUDE.md") as [text|] eqn:E.
  - rewrite bool_decide_eq_true_2 by eauto.
    destruct (fault env (ReadText "CLAUDE.md")); cbn [files log]; rewrite ?E, ?H;
      cbn [fst files trace result set_result log updated add_failed];
      (split; [reflexivity|]; split; [|reflexivity]);
      exists [Stat "CLAUDE.md"; ReadText "CLAUDE.md"];
      (split; [now rewrite <- app_assoc|]); now repeat constructor.
  - rewrite bool_decide_eq_false_2 by (intros [x Hx]; discriminate).
    cbn [fst files trace result log]. split; [reflexivity|]. split; [|reflexivity].
    exists [Stat "CLAUDE.md"]. split; [reflexivity|]. now repeat constructor.
Qed.

Lemma claude_md_unmarked_spares (s : State) :
  unmarked env s ->
  changes (spares claude_md) s (exec (_update_claude_md_include env dry_run) s).
Proof.
  intros H. destruct (claude_md_unmarked s H) as (_ & (ops & Ht & Ho) & _).
  eapply changes_refine; [apply changes_claude_md|].
  intros ops' Ht'. rewrite Ht in Ht'. apply app_inv_head in Ht'. subst ops'.
  eapply Forall_impl; [exact Ho|]. intros o Hr. unfold spares. now destruct o.
Qed.

Lemma claude_md_unmarked_plain (s : State) :
  unmarked env s -> plain s (exec (_update_claude_md_include env dry_run) s).
Proof.
  intros H. destruct (claude_md_unmarked s H) as (_ & _ & Hu).
  destruct (reports_claude_md env dry_run s) as [u k a f Hu' Hk Ha Hf _ HK HA].
  apply (MkReports _ _ _ _ _ [] k a f); rewrite ?app_nil_r; auto.
  all: eapply Forall_impl; eauto.
Qed.

Lemma plain_quaestor_file (c : string * string) :
  In c files_to_process -> keeps plain (update_quaestor_file env force dry_run c).
Proof.
  intros Hin s.
  assert (Hne : snd c <> config_section).
  { revert Hin. unfold files_to_process.
    intros [<-|[<-|[<-|[<-|[]]]]]; discriminate. }
  destruct c as [resource_name p]. cbn [snd] in Hne.
  pose proof (quaestor_file_result env force dry_run resource_name p s) as H.
  cbv zeta in H.
  set (s' := exec (update_quaestor_file env force dry_run (resource_name, p)) s) in *.
  destruct H as [[e H]|[[Hf H]|[H|[Hd H]]]].
  - apply (MkReports _ _ _ s s' [] [] [] [(p, e)]); rewrite ?H, ?app_nil_r; auto.
  - apply (MkReports _ _ _ s s' [] [p] [] []); rewrite ?H, ?app_nil_r; auto.
  - apply (MkReports _ _ _ s s' [p] [] [] []); rewrite ?H, ?app_nil_r; auto.
  - apply (MkReports _ _ _ s s' [] [] [p] []); rewrite ?H, ?app_nil_r; auto.
Qed.

Lemma plain_quaestor_files : keeps plain (_update_quaestor_files env force dry_run).
Proof.
  apply (keeps_for plain). intros c Hin. now apply plain_quaestor_file.
Qed.

Lemma plain_command_files : keeps plain (_update_command_files env dry_run).
Proof.
  apply (keeps_for plain). intros c _.
  eapply keeps_impl; [|apply reports_command_file].
  intros s1 s2. apply reports_weaken; auto.
Qed.

End Unmarked.

(** X16.  A [CLAUDE.md] that does not exist is not made, and a
    [CLAUDE.md] that holds no start marker is left as it is: whatever
    the flags and the faults, its text after a run of [update] is its
    text before (none, when there was none), the run attempts no write
    of it, and the section is not reported as updated. *)
Theorem unmarked_claude_md_is_left_alone
    (env : Env) (backup force dry_run : bool) (s : State) :
  (forall text, files s !! "CLAUDE.md" = Some text ->
                contains (QUAESTOR_CONFIG_START env) text = false) ->
  let s' := exec (update env backup force dry_run) s in
  files s' !! "CLAUDE.md" = files s !! "CLAUDE.md"
  /\ ~ In (WriteText "CLAUDE.md") (new_ops s s')
  /\ ~ In "CLAUDE.md (config section)" (updated (result s')).
Proof.
  intros Hun s'.
  set (s0 := exec (prologue env backup dry_run) s).
  set (s3 := exec (_update_command_files env dry_run)
               (exec (_update_quaestor_files env force dry_run) s0)).
  assert (Hl : Forall (fun c : string * string => snd c <> claude_md) files_to_process)
    by (repeat constructor; discriminate).
  assert (H3 : changes (spares claude_md) s s3).
  { subst s3 s0.
    etransitivity; [now apply (spares_prologue env dry_run claude_md backup)|].
    etransitivity;
      [now apply (spares_others env force dry_run claude_md files_to_process)|].
    apply (spares_commands env dry_run claude_md). }
  assert (Hun3 : unmarked env s3).
  { unfold unmarked. destruct (spares_file _ _ _ H3) as [-> _].
    unfold claude_md. destruct (files s !! "CLAUDE.md") as [text|] eqn:E; [|exact I].
    now apply Hun. }
  assert (Hs' : s' = exec (when (saves env dry_run) (save env))
                       (exec (_update_claude_md_include env dry_run) s3)).
  { subst s'. rewrite exec_update. reflexivity. }
  assert (Hall : changes (spares claude_md) s s').
  { rewrite Hs'. etransitivity; [exact H3|].
    transitivity (exec (_update_claude_md_include env dry_run) s3);
      [now apply claude_md_unmarked_spares | apply spares_save]. }
  destruct (spares_file _ _ _ Hall) as [Hf Hw].
  split; [exact Hf|]. split; [exact Hw|].
  subst s'. rewrite result_update. unfold before_save. fold s0. fold s3.
  assert (Hp : plain s0 (exec (_update_claude_md_include env dry_run) s3)).
  { subst s3.
    etransitivity; [apply (plain_quaestor_files env force dry_run)|].
    etransitivity; [apply (plain_command_files env dry_run)|].
    now apply claude_md_unmarked_plain. }
  destruct Hp as [u k a f Hu _ _ _ HU _ _].
  rewrite Hu. subst s0. rewrite result_prologue. cbn [updated new_result app].
  intros Hin. rewrite Forall_forall in HU.
  apply (HU config_section); [now apply list_elem_of_In | reflexivity].
Qed.

Lemma unmarked_claude_md_is_left_alone_witness :
  let s' := exec (update (Scenario.demo_env EmptyString) true true false)
              Scenario.edited_state in
  files s' !! "CLAUDE.md" = files Scenario.edited_state !! "CLAUDE.md"
  /\ ~ In (WriteText "CLAUDE.md") (new_ops Scenario.edited_state s')
  /\ ~ In "CLAUDE.md (config section)" (updated (result s')).
Proof.
  apply (unmarked_claude_md_is_left_alone (Scenario.demo_env EmptyString) true true
           false Scenario.edited_state).
  intros text H. vm_compute in H. discriminate.
Defined.

End ClaudeMdFacts.

(** ** What a dry run reports *)

Module DryRunFacts.
Import Py Updater UpdaterFacts RunFacts.




Section Preview.
Variable env : Env.
Variable force : bool.

(** The text on disk is not the text of the baseline. *)
Definition modified (p : string) (s : State) : bool :=
  match snd (is_file_modified env p s) with
  | inr b => b
  | inl _ => false
  end.






End Preview.




End DryRunFacts.

(** ** Rendering: plain text and one placeholder *)

Module PlaceholderFacts.
Import Py Re Template TextFacts ReFacts TemplateFacts.










(** *** Matching at the head of a text *)




(** *** Substitution around one match *)










(** *** Characters *)










(** *** Prefixes *)








(** *** One placeholder *)

Section Placeholder.
Variables u key u2 post : string.
Hypothesis spaces_before : all is_space u = true.
Hypothesis spaces_after : all is_space u2 = true.
Hypothesis word_key : all is_word key = true.
Hypothesis key_not_empty : key <> EmptyString.

(** The placeholder, and what follows its opening delimiter in the
    template. *)
Definition placeholder : string := "{{" +:+ u +:+ key +:+ u2 +:+ "}}".
Definition body : string := u +:+ key +:+ u2 +:+ "}}" +:+ post.






















(** *** The template: plain text, the placeholder, plain text *)

Variable pre : string.
Hypothesis plain_before : all not_brace pre = true.
Hypothesis plain_after : all not_brace post = true.

Definition template : string := pre +:+ placeholder +:+ post.














End Placeholder.



End PlaceholderFacts.

(** ** The data of a project *)

Module ProjectDataFacts.
Import Py Template ProjectData.

Lemma get_dict_set (d : context) (k : string) (v : value) (key : string)
    (default : value) :
  get (dict_set d k v) key default
  = if String.eqb k key then v else get d key default.
Proof.
  induction d as [|[k0 w] d IH]; cbn [dict_set get].
  - reflexivity.
  - destruct (String.eqb k0 k) eqn:E0; cbn [get].
    + apply String.eqb_eq in E0. subst k0.
      now destruct (String.eqb k key).
    + destruct (String.eqb k0 key) eqn:E1; [|exact IH].
      destruct (String.eqb k key) eqn:E2; [|reflexivity].
      apply String.eqb_eq in E1, E2. subst. now rewrite String.eqb_refl in E0.
Qed.

Lemma get_of_absent_key (d : context) (key : string) (default : value) :
  ~ In key (List.map fst d) -> get d key default = default.
Proof.
  induction d as [|[k w] d IH]; cbn [get List.map fst In]; [reflexivity|].
  intros H. destruct (String.eqb k key) eqn:E.
  - apply String.eqb_eq in E. tauto.
  - apply IH. tauto.
Qed.

(** A key of [more] takes its value from there, any other key keeps its
    own. *)
Lemma get_dict_merge (more d : context) (key : string) (default : value) :
  List.NoDup (List.map fst more) ->
  get (dict_merge d more) key default = get more key (get d key default).
Proof.
  revert d. induction more as [|[k v] more IH]; intros d H; cbn [dict_merge get].
  - reflexivity.
  - cbn [List.map fst] in H. apply List.NoDup_cons_iff in H as [Hk Hm].
    rewrite (IH _ Hm), get_dict_set.
    destruct (String.eqb k key) eqn:E; [|reflexivity].
    apply String.eqb_eq in E. subst k. now apply get_of_absent_key.
Qed.

(** X20.  The data of a project are looked up by precedence: a key that
    the complexity indicators have takes its value from them, otherwise
    a key that the configuration of the language has takes its value
    from it, and otherwise [project_name], [project_type] and
    [strict_mode] have the values computed.  The configuration is the
    one of the type of the project, or else the one of [unknown], or
    else empty. *)
Theorem project_data_lookup
    (project_name project_type : string) (complexity_info : context)
    (language_configs : list (string * context)) (data : context) :
  let lang_config :=
    get_config language_configs project_type
      (get_config language_configs "unknown" []) in
  List.NoDup (List.map fst complexity_info) ->
  List.NoDup (List.map fst lang_config) ->
  get_project_data project_name project_type complexity_info language_configs
  = inr data ->
  exists strict,
    strict_mode complexity_info = inr strict
    /\ forall key default,
         get data key default
         = get complexity_info key
             (get lang_config key
                (get [("project_name", VStr project_name);
                      ("project_type", VStr project_type);
                      ("strict_mode", VBool strict)] key default)).
Proof.
  intros lang_config Hc Hl H. unfold get_project_data in H. fold lang_config in H.
  destruct (strict_mode complexity_info) as [e|strict] eqn:E; [discriminate|].
  injection H as <-. exists strict. split; [reflexivity|].
  intros key default. now rewrite !get_dict_merge.
Qed.

Lemma project_data_lookup_witness :
  exists strict,
    strict_mode [("total_files", VInt 80); ("max_directory_depth", VNone)]
    = inr strict
    /\ forall key default,
         get [("project_name", VStr "demo"); ("project_type", VStr "python");
              ("strict_mode", VBool true); ("lint_command", VStr "ruff check .");
              ("total_files", VInt 80); ("max_directory_depth", VNone)]
           key default
         = get [("total_files", VInt 80); ("max_directory_depth", VNone)] key
             (get [("lint_command", VStr "ruff check .")] key
                (get [("project_name", VStr "demo");
                      ("project_type", VStr "python");
                      ("strict_mode", VBool strict)] key default)).
Proof.
  apply (project_data_lookup "demo" "python"
           [("total_files", VInt 80); ("max_directory_depth", VNone)]
           [("unknown", []); ("python", [("lint_command", VStr "ruff check .")])]).
  - repeat constructor; cbn; intuition discriminate.
  - repeat constructor; cbn; intuition discriminate.
  - reflexivity.
Defined.

End ProjectDataFacts.
